(** * Ngonilele tablature generator: parser and audio export

    A shallow embedding of [src/utils/parser.ts] and of the export path of
    [src/utils/audio.ts], followed by the properties of the specification that
    are checked against it.

    Conventions.
    - A JavaScript string is the list of its UTF-16 code units.
    - A JavaScript number is an IEEE 754 binary64 value: Rocq's primitive
      [float], whose operations are the ones the JavaScript engine performs.
    - An [async] method is modelled by its sequential effect on the engine
      state: what happens between two [await]s of one call is not interleaved
      with other calls.
    - What the browser or a third-party library computes (Unicode case
      mapping, sample loading, offline mixing, MP3 encoding) is a variable of
      the section that uses it. *)

From Stdlib Require Import ZArith NArith List Bool String Ascii Lia.
From Stdlib Require Import Permutation.
From Stdlib Require Import DecimalString DecimalNat.
From Stdlib Require Import PrimFloat SpecFloat FloatOps FloatAxioms.
Import ListNotations.

Local Open Scope list_scope.

(** A decimal literal of the source denotes the nearest binary64 value. *)
Set Warnings "-inexact-float".

(* ===================================================================== *)
(** * The JavaScript runtime *)
(* ===================================================================== *)

Module JS.

(** ** Strings *)

Local Open Scope N_scope.

Definition code_unit := N.
Definition jsstring := list code_unit.

(** An ASCII literal of the source, as a JavaScript string. *)
Definition lit (s : string) : jsstring :=
  map N_of_ascii (list_ascii_of_string s).

Definition code_unit_eqb : code_unit -> code_unit -> bool := N.eqb.

Fixpoint str_eqb (a b : jsstring) : bool :=
  match a, b with
  | [], [] => true
  | x :: a', y :: b' => code_unit_eqb x y && str_eqb a' b'
  | _, _ => false
  end.

(** [WhiteSpace] and [LineTerminator] of ECMAScript: what [\s] matches and
    what [String.prototype.trim] strips. *)
Definition is_white_space (c : code_unit) : bool :=
  ((9 <=? c) && (c <=? 13) || (c =? 32) || (c =? 0xA0) || (c =? 0x1680)
   || (0x2000 <=? c) && (c <=? 0x200A)
   || (c =? 0x2028) || (c =? 0x2029) || (c =? 0x202F) || (c =? 0x205F)
   || (c =? 0x3000) || (c =? 0xFEFF))%N.

Fixpoint trimStart (s : jsstring) : jsstring :=
  match s with
  | [] => []
  | c :: r => if is_white_space c then trimStart r else s
  end.

Definition trimEnd (s : jsstring) : jsstring := rev (trimStart (rev s)).

(** [s.trim()] *)
Definition trim (s : jsstring) : jsstring := trimEnd (trimStart s).

(** [s.split(sep)] for a separator of one code unit: never empty. *)
Fixpoint split_on (sep : code_unit) (s : jsstring) : list jsstring :=
  match s with
  | [] => [[]]
  | c :: r =>
      if code_unit_eqb c sep then [] :: split_on sep r
      else match split_on sep r with
           | w :: ws => (c :: w) :: ws
           | [] => [[c]]
           end
  end.

(** [s.split(/\s+/)]: the pieces between maximal runs of white space. A
    leading or trailing run leaves an empty piece, and the empty string
    splits into one empty piece. [in_run] tells that the previous code unit
    was white space. *)
Fixpoint split_ws_from (in_run : bool) (s : jsstring) : list jsstring :=
  match s with
  | [] => [[]]
  | c :: r =>
      if is_white_space c then
        if in_run then split_ws_from true r else [] :: split_ws_from true r
      else match split_ws_from false r with
           | w :: ws => (c :: w) :: ws
           | [] => [[c]]
           end
  end.

Definition split_ws (s : jsstring) : list jsstring := split_ws_from false s.

(** [parts.join(sep)] *)
Fixpoint join (sep : jsstring) (parts : list jsstring) : jsstring :=
  match parts with
  | [] => []
  | [p] => p
  | p :: ps => p ++ sep ++ join sep ps
  end.

(** [s.endsWith(".")] and [s.slice(0, -1)] *)
Definition endsWith_dot (s : jsstring) : bool :=
  match rev s with
  | c :: _ => code_unit_eqb c 46
  | [] => false
  end.

Definition slice_0_m1 (s : jsstring) : jsstring := removelast s.

Definition is_digit (c : code_unit) : bool := ((48 <=? c) && (c <=? 57))%N.

(** The longest prefix of decimal digits, and what follows it. *)
Fixpoint span_digits (s : jsstring) : jsstring * jsstring :=
  match s with
  | c :: r =>
      if is_digit c then let (ds, rest) := span_digits r in (c :: ds, rest)
      else ([], s)
  | [] => ([], [])
  end.

(** [/^\d+(\.\d+)?$/.test(s)] *)
Definition is_decimal_literal (s : jsstring) : bool :=
  match span_digits s with
  | ([], _) => false
  | (_ :: _, []) => true
  | (_ :: _, c :: frac) =>
      code_unit_eqb c 46 &&
      match span_digits frac with
      | (_ :: _, []) => true
      | _ => false
      end
  end.

(** Decimal digits of a natural number, as a template literal prints it. *)
Definition decimal (n : nat) : jsstring :=
  lit (NilZero.string_of_uint (Nat.to_uint n)).

(** *** [String.prototype.toUpperCase]

    The mapping is applied code point by code point. Basic Latin is mapped
    here; the mapping of every other code point (given as its one or two
    code units) is the Unicode table of the engine, [unicode_upper]. *)
Section UpperCase.

Variable unicode_upper : jsstring -> jsstring.

Definition ascii_upper (c : code_unit) : code_unit :=
  if ((97 <=? c) && (c <=? 122))%N then (c - 32)%N else c.

Definition is_high_surrogate (c : code_unit) : bool :=
  ((0xD800 <=? c) && (c <=? 0xDBFF))%N.

Definition is_low_surrogate (c : code_unit) : bool :=
  ((0xDC00 <=? c) && (c <=? 0xDFFF))%N.

Fixpoint toUpperCase (s : jsstring) : jsstring :=
  match s with
  | [] => []
  | c :: r =>
      if (c <? 128)%N then ascii_upper c :: toUpperCase r
      else
        match r with
        | d :: r' =>
            if is_high_surrogate c && is_low_surrogate d
            then unicode_upper [c; d] ++ toUpperCase r'
            else unicode_upper [c] ++ toUpperCase r
        | [] => unicode_upper [c]
        end
  end.

End UpperCase.

(** ** Numbers *)

Local Open Scope float_scope.

(** The integer [z] as a number (nearest binary64 value). *)
Definition of_Z (z : Z) : float :=
  SF2Prim (binary_normalize prec emax z 0 false).

(** The binary64 value nearest to [n / d], for [0 <= n] and [0 < d]. *)
Definition nearest_ratio (n d : Z) : float :=
  match n with
  | Z0 => 0
  | _ =>
      let '(q, e, l) := SFdiv_core_binary prec emax n 0 d 0 in
      SF2Prim (binary_round_aux prec emax false q e l)
  end.

Definition digits_value (ds : jsstring) : Z :=
  fold_left (fun acc c => (acc * 10 + (Z.of_N c - 48))%Z) ds 0%Z.

(** [parseFloat(s)] on an unsigned decimal literal [digits] or
    [digits.digits] (the only strings the parser passes to it): the number
    nearest to the literal's value. Any other string gives [NaN] here. *)
Definition parseFloat (s : jsstring) : float :=
  match span_digits s with
  | ([], _) => nan
  | (ip, c :: fp) =>
      if code_unit_eqb c 46%N
      then let (fd, _) := span_digits fp in
           nearest_ratio (digits_value (ip ++ fd))
                         (10 ^ Z.of_nat (List.length fd))%Z
      else nearest_ratio (digits_value ip) 1%Z
  | (ip, []) => nearest_ratio (digits_value ip) 1%Z
  end.

(** The integer part of a finite number, rounded towards zero; 0 for
    [NaN] and the infinities. *)
Definition truncate (x : float) : Z :=
  match Prim2SF x with
  | S754_finite s m e =>
      let a := if (0 <=? e)%Z then Z.shiftl (Zpos m) e
               else Z.shiftr (Zpos m) (- e) in
      if s then (- a)%Z else a
  | _ => 0%Z
  end.

(** [Math.floor] *)
Definition floor (x : float) : float :=
  match Prim2SF x with
  | S754_finite s m e =>
      if (0 <=? e)%Z then x
      else
        let q := Z.shiftr (Zpos m) (- e) in
        if (Z.shiftl q (- e) =? Zpos m)%Z then x
        else if s then - of_Z (q + 1) else of_Z q
  | _ => x
  end.

(** [Math.min] and [Math.max] of two numbers. *)
Definition min (a b : float) : float :=
  if is_nan a || is_nan b then nan
  else if a <? b then a
  else if b <? a then b
  else if get_sign b then b else a.

Definition max (a b : float) : float :=
  if is_nan a || is_nan b then nan
  else if a <? b then b
  else if b <? a then a
  else if get_sign b then a else b.

(** [ToInt32] (the operand conversion of [x | 0]), [ToUint32], [ToInt16] and
    [ToUint16]. *)
Definition wrap_unsigned (bits : Z) (z : Z) : Z := (z mod 2 ^ bits)%Z.

Definition wrap_signed (bits : Z) (z : Z) : Z :=
  let u := wrap_unsigned bits z in
  if (2 ^ (bits - 1) <=? u)%Z then (u - 2 ^ bits)%Z else u.

Definition ToInt32 (x : float) : Z := wrap_signed 32 (truncate x).
Definition ToUint32 (x : float) : Z := wrap_unsigned 32 (truncate x).
Definition ToInt16 (x : float) : Z := wrap_signed 16 (truncate x).
Definition ToUint16 (x : float) : Z := wrap_unsigned 16 (truncate x).

(** [ToBoolean] of a number. *)
Definition truthy (x : float) : bool := negb (is_zero x || is_nan x).

(** ** Object literals used as tables

    A lookup [table[key]] on an object literal finds the literal's own
    properties first and then the members every object inherits from
    [Object.prototype]; only a key found in neither gives [undefined]. *)

Definition object_prototype_members : list jsstring :=
  map lit
    [ "constructor"; "hasOwnProperty"; "isPrototypeOf";
      "propertyIsEnumerable"; "toLocaleString"; "toString"; "valueOf";
      "__proto__"; "__defineGetter__"; "__defineSetter__";
      "__lookupGetter__"; "__lookupSetter__" ]%string.

Inductive property (A : Type) : Type :=
| Own (v : A)
| Inherited (name : jsstring)
| Undefined.

Arguments Own {A} v.
Arguments Inherited {A} name.
Arguments Undefined {A}.

Fixpoint own_property {A} (table : list (jsstring * A)) (key : jsstring)
  : option A :=
  match table with
  | [] => None
  | (k, v) :: t => if str_eqb k key then Some v else own_property t key
  end.

Definition get_property {A} (table : list (jsstring * A)) (key : jsstring)
  : property A :=
  match own_property table key with
  | Some v => Own v
  | None =>
      if existsb (str_eqb key) object_prototype_members
      then Inherited key else Undefined
  end.

End JS.

(* ===================================================================== *)
(** * The tablature parser: [src/utils/parser.ts] *)
(* ===================================================================== *)

Module Parser.

Import JS.
Local Open Scope float_scope.

(** Modelled from the spec: the tick constants are imported from [../types],
    which is not among the sources. The spec's tick model (quarter 12, eighth
    6, triplet 4, sixteenth 3) and the comments beside their uses in
    [parser.ts] give their values. *)
Definition TICKS_QUARTER : float := 12.
Definition TICKS_EIGHTH : float := 6.
Definition TICKS_TRIPLET : float := 4.
Definition TICKS_SIXTEENTH : float := 3.

(** The duration symbols that are not ASCII, as UTF-16 code units:
    U+266A (eighth note), U+1F3B6 (multiple musical notes, a surrogate pair)
    and U+266C (beamed sixteenth notes). *)
Definition EIGHTH_NOTE : jsstring := [0x266A%N].
Definition MUSICAL_NOTES : jsstring := [0xD83C%N; 0xDFB6%N].
Definition BEAMED_SIXTEENTH : jsstring := [0x266C%N].

Definition SYMBOLS_DURATION : list (jsstring * float) :=
  [ (lit "+", TICKS_QUARTER);
    (EIGHTH_NOTE, TICKS_EIGHTH);
    (MUSICAL_NOTES, TICKS_TRIPLET);
    (BEAMED_SIXTEENTH, TICKS_SIXTEENTH);
    (lit "w", 48);
    (lit "h", 24) ].

Definition AUTOMATIC_FINGERING : list (jsstring * jsstring) :=
  [ (lit "1G", lit "P"); (lit "2G", lit "P"); (lit "3G", lit "P");
    (lit "1D", lit "P"); (lit "2D", lit "P"); (lit "3D", lit "P");
    (lit "4G", lit "I"); (lit "5G", lit "I"); (lit "6G", lit "I");
    (lit "4D", lit "I"); (lit "5D", lit "I"); (lit "6D", lit "I") ].

(** ** Values of [thisDelta], [currentTick] and [tick]

    [thisDelta] is a number, or the member of [Object.prototype] that the
    lookup in [SYMBOLS_DURATION] returned. Adding such a member to the
    cursor converts both operands to text and concatenates them, so a tick
    is a number or a text; a text is kept as the sequence of the values
    whose renderings were concatenated. *)
Inductive delta_value :=
| DNum (x : float)
| DMember (name : jsstring).

Inductive piece :=
| PNumber (x : float)
| PMember (name : jsstring).

Inductive tick_value :=
| Num (x : float)
| Text (pieces : list piece).

(** [currentTick + thisDelta] *)
Definition add (cursor : tick_value) (d : delta_value) : tick_value :=
  match cursor, d with
  | Num c, DNum x => Num (c + x)
  | Num c, DMember m => Text [PNumber c; PMember m]
  | Text ps, DNum x => Text (ps ++ [PNumber x])
  | Text ps, DMember m => Text (ps ++ [PMember m])
  end.

(** [ToNumber]: every text built by [add] contains the source text of a
    function or ["[object Object]"], which is not a numeric literal. *)
Definition ToNumber (v : tick_value) : float :=
  match v with
  | Num x => x
  | Text _ => nan
  end.

(** [ParsedNote] of [../types], with the fields the parser fills in. An
    absent optional field is [None] ([false] for [isPageBreak]). *)
Record ParsedNote := {
  id : jsstring;
  tick : tick_value;
  duration : float;
  stringId : jsstring;
  doigt : option jsstring;
  message : option jsstring;
  isPageBreak : bool;
  lineIndex : nat
}.

(** The local variables [currentTick] and [data] that the callback of
    [forEach] updates. *)
Record state := {
  currentTick : tick_value;
  data : list ParsedNote
}.

Fixpoint last_note (l : list ParsedNote) : option ParsedNote :=
  match l with
  | [] => None
  | [n] => Some n
  | _ :: r => last_note r
  end.

(** The cursor and [thisDelta] after the if-chain on [col1]. *)
Definition detect_delta (st : state) (col1 : jsstring)
  : tick_value * delta_value :=
  if str_eqb col1 (lit "=") then
    (match last_note (data st) with
     | Some n => tick n
     | None => currentTick st
     end, DNum 0)
  else if is_decimal_literal col1 then
    (currentTick st, DNum (parseFloat col1))
  else
    match get_property SYMBOLS_DURATION col1 with
    | Own v => (currentTick st, DNum v)
    | Inherited m => (currentTick st, DMember m)
    | Undefined =>
        if endsWith_dot col1 then
          match get_property SYMBOLS_DURATION (slice_0_m1 col1) with
          | Own v =>
              if truthy v then (currentTick st, DNum (floor (v * 1.5)))
              else (currentTick st, DNum 12)
          | Inherited _ =>
              (* [Math.floor] of a function or object times 1.5 *)
              (currentTick st, DNum nan)
          | Undefined => (currentTick st, DNum 12)
          end
        else (currentTick st, DNum 12)
    end.

Section Lines.

Variable unicode_upper : jsstring -> jsstring.

(** The callback of [lines.forEach]. *)
Definition process_line (st : state) (index : nat) (line : jsstring)
  : state :=
  match split_ws (trim line) with
  | col1 :: field2 :: rest =>
      let (cursor, thisDelta) := detect_delta st col1 in
      let noteTick := add cursor thisDelta in
      let stringCode := toUpperCase unicode_upper field2 in
      if str_eqb stringCode (lit "TXT") then
        {| currentTick := noteTick;
           data := data st ++
             [ {| id := lit "txt-" ++ decimal index;
                  tick := noteTick;
                  duration := 0;
                  stringId := lit "TEXTE";
                  doigt := None;
                  message := Some (join (lit " ") rest);
                  isPageBreak := false;
                  lineIndex := index |} ] |}
      else if str_eqb stringCode (lit "PAGE") then
        {| currentTick := noteTick;
           data := data st ++
             [ {| id := lit "pg-" ++ decimal index;
                  tick := noteTick;
                  duration := 0;
                  stringId := lit "PAGE_BREAK";
                  doigt := None;
                  message := None;
                  isPageBreak := true;
                  lineIndex := index |} ] |}
      else if str_eqb stringCode (lit "S")
              || str_eqb stringCode (lit "SILENCE")
              || str_eqb stringCode (lit "SEP") then
        {| currentTick := noteTick; data := data st |}
      else
        (* [stringCode] is in upper case and the name of every inherited
           member has a small letter: only own properties can be found *)
        let auto :=
          match own_property AUTOMATIC_FINGERING stringCode with
          | Some d => d
          | None => lit "P"
          end in
        let doigt :=
          match rest with
          | field3 :: _ =>
              let p3 := toUpperCase unicode_upper field3 in
              if str_eqb p3 (lit "I") || str_eqb p3 (lit "P") then p3
              else auto
          | [] => auto
          end in
        {| currentTick := noteTick;
           data := data st ++
             [ {| id := lit "note-" ++ decimal index;
                  tick := noteTick;
                  duration := 0;
                  stringId := stringCode;
                  doigt := Some doigt;
                  message := None;
                  isPageBreak := false;
                  lineIndex := index |} ] |}
  | _ => st
  end.

(** [lines.forEach((line, index) => ...)], from [index] on. *)
Fixpoint forEach_line (lines : list jsstring) (index : nat) (st : state)
  : state :=
  match lines with
  | [] => st
  | line :: more => forEach_line more (S index) (process_line st index line)
  end.

(** [data.sort((a, b) => a.tick - b.tick)]: [Array.prototype.sort] is a
    stable sort; a comparator result that is not a positive number (zero,
    negative or [NaN]) leaves the earlier element first. *)
Definition compare_ticks (a b : ParsedNote) : float :=
  ToNumber (tick a) - ToNumber (tick b).

Fixpoint insert_note (x : ParsedNote) (sorted : list ParsedNote)
  : list ParsedNote :=
  match sorted with
  | [] => [x]
  | y :: r =>
      if 0 <? compare_ticks x y then y :: insert_note x r
      else x :: sorted
  end.

Definition sort_by_tick (l : list ParsedNote) : list ParsedNote :=
  fold_right insert_note [] l.

Definition initial_state : state := {| currentTick := Num 0; data := [] |}.

(** The lines [forEach] visits: those of the trimmed text. *)
Definition lines_of (text : jsstring) : list jsstring :=
  split_on 10%N (trim text).

Definition parseTablature (text : jsstring) : list ParsedNote :=
  match text with
  | [] => []
  | _ => sort_by_tick (data (forEach_line (lines_of text) 0 initial_state))
  end.

End Lines.

(** A text given line by line. *)
Definition unlines (ls : list jsstring) : jsstring := join [10%N] ls.

End Parser.

(* ===================================================================== *)
(** * The audio engine: [src/utils/audio.ts] *)
(* ===================================================================== *)

Module Audio.

Import JS.
Local Open Scope float_scope.

(** An [AudioBuffer] of the platform: [numberOfChannels] is the number of
    channel arrays, and each of them holds [length] samples (32-bit floats,
    read as numbers). *)
Record AudioBuffer := {
  sampleRate : float;
  length : nat;
  channels : list (list float)
}.

Definition numberOfChannels (b : AudioBuffer) : nat :=
  List.length (channels b).

Definition getChannelData (b : AudioBuffer) (i : nat) : list float :=
  nth i (channels b) [].

(** [array[pos]]: [undefined] outside the array, which [Math.min] turns
    into [NaN]. *)
Definition sample_at (channel : list float) (pos : nat) : float :=
  match nth_error channel pos with
  | Some x => x
  | None => nan
  end.

Definition byte := Z.

Record Blob := {
  blob_bytes : list byte;
  blob_type : jsstring
}.

(** ** [bufferToWave] *)

(** The [n] low bytes of [v], least significant first. *)
Definition little_endian (n : nat) (v : Z) : list byte :=
  map (fun i => (Z.shiftr v (8 * Z.of_nat i) mod 256)%Z) (seq 0 n).

(** [view.setUint16(offset, data, true)], [view.setUint32(offset, data,
    true)] and [view.setInt16(offset, data, true)]: the bytes written at
    [offset]. *)
Definition setUint16 (data : float) : list byte :=
  little_endian 2 (ToUint16 data).

Definition setUint32 (data : float) : list byte :=
  little_endian 4 (ToUint32 data).

Definition setInt16 (data : float) : list byte :=
  little_endian 2 (wrap_unsigned 16 (ToInt16 data)).

(** Lines 40 and 41: the clamp and the scaling to a 16-bit integer. The
    condition of the conditional expression is [0.5 + sample < 0]. *)
Definition clamp (x : float) : float := JS.max (-1) (JS.min 1 x).

Definition scale16 (sample : float) : Z :=
  ToInt32 (if 0.5 + sample <? 0 then sample * 32768 else sample * 32767).

Definition wave_sample (x : float) : Z := scale16 (clamp x).

(** The header and the interleaved samples are written one after the other
    and fill the [ArrayBuffer] of [length] bytes exactly, so the file is
    their concatenation. [pos] is still 0 when the size of the data chunk is
    written. *)
Definition bufferToWave (abuffer : AudioBuffer) (len : nat) : Blob :=
  let numOfChan := of_Z (Z.of_nat (numberOfChannels abuffer)) in
  let length := of_Z (Z.of_nat len) * numOfChan * 2 + 44 in
  let pos := 0 in
  let header :=
    setUint32 (of_Z 0x46464952) ++
    setUint32 (length - 8) ++
    setUint32 (of_Z 0x45564157) ++
    setUint32 (of_Z 0x20746d66) ++
    setUint32 16 ++
    setUint16 1 ++
    setUint16 numOfChan ++
    setUint32 (sampleRate abuffer) ++
    setUint32 (sampleRate abuffer * 2 * numOfChan) ++
    setUint16 (numOfChan * 2) ++
    setUint16 16 ++
    setUint32 (of_Z 0x61746164) ++
    setUint32 (length - pos - 4) in
  let samples :=
    flat_map
      (fun pos =>
         flat_map
           (fun channel =>
              setInt16 (of_Z (wave_sample (sample_at channel pos))))
           (channels abuffer))
      (seq 0 len) in
  {| blob_bytes := header ++ samples; blob_type := lit "audio/wav" |}.

(** ** The engine *)

Record AudioContext := {
  ctx_sampleRate : float;
  currentTime : float
}.

(** The fields of [AudioEngine] that the methods below read or write. *)
Record AudioEngine := {
  ctx : option AudioContext;
  isPlaying : bool;
  startTime : float;
  bpm : float;
  playbackSpeed : float;
  notes : list Parser.ParsedNote;
  currentTuning : list (jsstring * jsstring);
  stringBuffers : list (jsstring * AudioBuffer);
  samplesLoaded : bool
}.

Definition set_playbackSpeed (speed : float) (e : AudioEngine)
  : AudioEngine :=
  {| ctx := ctx e; isPlaying := isPlaying e; startTime := startTime e;
     bpm := bpm e; playbackSpeed := speed; notes := notes e;
     currentTuning := currentTuning e; stringBuffers := stringBuffers e;
     samplesLoaded := samplesLoaded e |}.

Definition set_samples (buffers : list (jsstring * AudioBuffer))
  (e : AudioEngine) : AudioEngine :=
  {| ctx := ctx e; isPlaying := isPlaying e; startTime := startTime e;
     bpm := bpm e; playbackSpeed := playbackSpeed e; notes := notes e;
     currentTuning := currentTuning e; stringBuffers := buffers;
     samplesLoaded := true |}.

Definition setPlaybackSpeed (speed : float) (e : AudioEngine) : AudioEngine :=
  set_playbackSpeed speed e.

Definition setBpm (b : float) (e : AudioEngine) : AudioEngine :=
  {| ctx := ctx e; isPlaying := isPlaying e; startTime := startTime e;
     bpm := b; playbackSpeed := playbackSpeed e; notes := notes e;
     currentTuning := currentTuning e; stringBuffers := stringBuffers e;
     samplesLoaded := samplesLoaded e |}.

Definition setNotes (ns : list Parser.ParsedNote) (e : AudioEngine)
  : AudioEngine :=
  {| ctx := ctx e; isPlaying := isPlaying e; startTime := startTime e;
     bpm := bpm e; playbackSpeed := playbackSpeed e;
     notes :=
       filter (fun n => negb (str_eqb (Parser.stringId n) (lit "TEXTE"))
                        && negb (str_eqb (Parser.stringId n)
                                         (lit "PAGE_BREAK"))) ns;
     currentTuning := currentTuning e; stringBuffers := stringBuffers e;
     samplesLoaded := samplesLoaded e |}.

Definition getCurrentTick (e : AudioEngine) : float :=
  match ctx e with
  | None => 0
  | Some c =>
      if negb (isPlaying e) then 0
      else
        let effectiveBpm := bpm e * playbackSpeed e in
        let secondsPerTick := (60 / effectiveBpm) / 12 in
        (currentTime c - startTime e) / secondsPerTick
  end.

(** A call either returns a value or is left by an exception. *)
Inductive outcome (A : Type) : Type :=
| Returned (a : A)
| Thrown.

Arguments Returned {A} a.
Arguments Thrown {A}.

(** What the engine asks of an [OfflineAudioContext]: the arguments of its
    constructor and the sources started on it, each a buffer through a gain
    node at a start time. *)
Record Source := {
  source_buffer : AudioBuffer;
  source_gain : float;
  source_start : float
}.

Record OfflineRequest := {
  req_channels : nat;
  req_length : float;
  req_sampleRate : float;
  req_sources : list Source
}.

(** [Array.from(new Set(values))]: first occurrences, in order. *)
Fixpoint unique (seen : list jsstring) (l : list jsstring) : list jsstring :=
  match l with
  | [] => []
  | x :: r =>
      if existsb (str_eqb x) seen then unique seen r
      else x :: unique (x :: seen) r
  end.

Section Platform.

(** The sample bank: the buffer that loading the sample of a note name
    settles to in a context of the given sample rate (the decoded file or,
    when it cannot be fetched, the tone of [generateFallbackBuffer]). *)
Variable resolve_sample : float -> jsstring -> AudioBuffer.

(** The offline renderer of the platform: the channel arrays it renders for
    a request, or [None] when building or rendering the graph raises an
    exception. *)
Variable offline_mix : OfflineRequest -> option (list (list float)).

(** The MP3 encoder of [lamejs]: [new Mp3Encoder(channels, sampleRate,
    kbps)], [encodeBuffer(left, right)] (or [encodeBuffer(left)]) and
    [flush()], each returning the bytes it produced. *)
Variable encoder : Type.
Variable Mp3Encoder : nat -> float -> float -> encoder.
Variable encodeBuffer :
  encoder -> list Z -> option (list Z) -> encoder * list byte.
Variable flush : encoder -> list byte.

(** [loadSamples]: without a context nothing happens; otherwise every note
    name of the tuning for which [stringBuffers] has no truthy entry gets
    its buffer. *)
Definition loadSamples (e : AudioEngine) : AudioEngine :=
  match ctx e with
  | None => e
  | Some c =>
      let tuningValues := map snd (currentTuning e) in
      let uniqueNotes := unique [] tuningValues in
      let missing :=
        filter
          (fun note =>
             match get_property (stringBuffers e) note with
             | Undefined => true
             | _ => false
             end)
          uniqueNotes in
      set_samples
        (stringBuffers e ++
         map (fun note => (note, resolve_sample (ctx_sampleRate c) note))
             missing)
        e
  end.

(** The body of [this.notes.forEach] in [renderProjectToBuffer]: the
    sources started, or [None] when assigning [source.buffer] raises a
    [TypeError] because the entry found in [stringBuffers] is an inherited
    member and not a buffer. A tuning entry that is itself an inherited
    member names no buffer. *)
Fixpoint start_sources (e : AudioEngine) (secondsPerTick : float)
  (ns : list Parser.ParsedNote) : option (list Source) :=
  match ns with
  | [] => Some []
  | note :: more =>
      let noteTime := Parser.ToNumber (Parser.tick note) * secondsPerTick in
      let started :=
        match get_property (currentTuning e) (Parser.stringId note) with
        | Own ((_ :: _) as noteName) =>
            match get_property (stringBuffers e) noteName with
            | Own buffer =>
                Some [ {| source_buffer := buffer;
                          source_gain := 0.4;
                          source_start := noteTime |} ]
            | Inherited _ => None
            | Undefined => Some []
            end
        | _ => Some []
        end in
      match started, start_sources e secondsPerTick more with
      | Some s, Some ss => Some (s ++ ss)
      | _, _ => None
      end
  end.

(** [renderProjectToBuffer]. The rendered buffer has the length and the
    sample rate the [OfflineAudioContext] was created with. *)
Definition renderProjectToBuffer (e : AudioEngine)
  : AudioEngine * outcome (option AudioBuffer) :=
  match notes e with
  | [] => (e, Returned None)
  | _ :: _ =>
      let e := loadSamples e in
      match Parser.last_note (notes e) with
      | None => (e, Returned None)
      | Some lastNote =>
          let effectiveBpm := bpm e * playbackSpeed e in
          let secondsPerTick := (60 / effectiveBpm) / 12 in
          let duration :=
            Parser.ToNumber (Parser.tick lastNote) * secondsPerTick + 3 in
          let sampleRate :=
            match ctx e with
            | Some c => ctx_sampleRate c
            | None => 44100
            end in
          match start_sources e secondsPerTick (notes e) with
          | None => (e, Thrown)
          | Some sources =>
              let request :=
                {| req_channels := 2;
                   req_length := sampleRate * duration;
                   req_sampleRate := sampleRate;
                   req_sources := sources |} in
              match offline_mix request with
              | None => (e, Thrown)
              | Some rendered =>
                  (e, Returned (Some
                     {| sampleRate := sampleRate;
                        length := Z.to_nat (ToUint32 (req_length request));
                        channels := rendered |}))
              end
          end
      end
  end.

(** [exportWav]: an exception of the render leaves the method before the
    saved speed is written back. *)
Definition exportWav (e : AudioEngine) : AudioEngine * outcome (option Blob) :=
  let savedSpeed := playbackSpeed e in
  let e := set_playbackSpeed 1 e in
  match renderProjectToBuffer e with
  | (e, Thrown) => (e, Thrown)
  | (e, Returned buffer) =>
      let e := set_playbackSpeed savedSpeed e in
      match buffer with
      | None => (e, Returned None)
      | Some buffer => (e, Returned (Some (bufferToWave buffer (length buffer))))
      end
  end.

(** The 16-bit samples of [exportMp3]: the value stored in an [Int16Array]
    element is converted by [ToInt16]. *)
Definition mp3_sample (x : float) : Z :=
  let val := JS.max (-1) (JS.min 1 x) in
  ToInt16 (if val <? 0 then val * 32768 else val * 32767).

(** The encoder fed with the blocks that start at the given offsets. *)
Fixpoint encode_blocks (channelCount : nat) (samplesLeft samplesRight : list Z)
  (offsets : list nat) (enc : encoder) : encoder * list (list byte) :=
  match offsets with
  | [] => (enc, [])
  | i :: more =>
      let leftChunk := firstn 1152 (skipn i samplesLeft) in
      let rightChunk := firstn 1152 (skipn i samplesRight) in
      let (enc, mp3buf) :=
        if Nat.eqb channelCount 2
        then encodeBuffer enc leftChunk (Some rightChunk)
        else encodeBuffer enc leftChunk None in
      let (enc, mp3Data) :=
        encode_blocks channelCount samplesLeft samplesRight more enc in
      (enc, match mp3buf with [] => mp3Data | _ => mp3buf :: mp3Data end)
  end.

Definition encodeMp3 (buffer : AudioBuffer) : Blob :=
  let channelCount := numberOfChannels buffer in
  let mp3encoder := Mp3Encoder channelCount (sampleRate buffer) 320 in
  let left := getChannelData buffer 0 in
  let right :=
    if Nat.ltb 1 channelCount then getChannelData buffer 1 else left in
  let samplesLeft := map mp3_sample left in
  let samplesRight :=
    map (fun i =>
           if Nat.ltb i (List.length left)
           then mp3_sample (sample_at right i) else 0%Z)
        (seq 0 (List.length right)) in
  let blocks := ((List.length samplesLeft + 1151) / 1152)%nat in
  let offsets := map (fun k => k * 1152)%nat (seq 0 blocks) in
  let (enc, mp3Data) :=
    encode_blocks channelCount samplesLeft samplesRight offsets mp3encoder in
  let last := flush enc in
  {| blob_bytes :=
       List.concat (mp3Data ++ match last with [] => [] | _ => [last] end);
     blob_type := lit "audio/mp3" |}.

Definition exportMp3 (e : AudioEngine) : AudioEngine * outcome (option Blob) :=
  let savedSpeed := playbackSpeed e in
  let e := set_playbackSpeed 1 e in
  match renderProjectToBuffer e with
  | (e, Thrown) => (e, Thrown)
  | (e, Returned buffer) =>
      let e := set_playbackSpeed savedSpeed e in
      match buffer with
      | None => (e, Returned None)
      | Some buffer => (e, Returned (Some (encodeMp3 buffer)))
      end
  end.

End Platform.

End Audio.

(* ===================================================================== *)
(** * The properties of the specification, stated on the model *)
(* ===================================================================== *)

Module Claims.

Import JS Parser.
Local Open Scope float_scope.

(** A Unicode table that maps every code point outside Basic Latin to
    itself: enough for inputs that have no cased letter outside Basic
    Latin, as all the examples below. *)
Definition no_mapping : jsstring -> jsstring := fun code_point => code_point.

Definition ticks_of (l : list ParsedNote) : list tick_value := map tick l.

(** The tick [v] is the number [x]. *)
Definition is_number (x : float) (v : tick_value) : bool :=
  match v with
  | Num y => PrimFloat.eqb y x
  | Text _ => false
  end.

(** The event of the line "+ 1D" read as second line after a quarter. *)
Definition second_line_note : ParsedNote :=
  {| id := lit "note-1"; tick := Num 24; duration := 0;
     stringId := lit "1D"; doigt := Some (lit "P"); message := None;
     isPageBreak := false; lineIndex := 1 |}.

(** ** Delta resolution *)

(** The duration symbols and their ticks, as the specification lists them. *)
Definition claimed_symbols : list (jsstring * Z) :=
  [ (lit "+", 12); (EIGHTH_NOTE, 6); (MUSICAL_NOTES, 4);
    (BEAMED_SIXTEENTH, 3); (lit "w", 48); (lit "h", 24) ]%Z.

(** The delta the specification gives to a first field: the value of a
    numeric literal, the ticks of a symbol, the floor of one and a half
    times the ticks of a dotted symbol, and 0 for [=]. *)
Inductive claimed_delta : jsstring -> float -> Prop :=
| delta_numeric col1 :
    is_decimal_literal col1 = true -> claimed_delta col1 (parseFloat col1)
| delta_symbol s v :
    In (s, v) claimed_symbols -> claimed_delta s (of_Z v)
| delta_dotted s v :
    In (s, v) claimed_symbols ->
    claimed_delta (s ++ lit ".") (of_Z (3 * v / 2))
| delta_equal : claimed_delta (lit "=") 0.

(** The tick the delta is added to: the cursor, except that [=] first
    moves the cursor to the tick of the event emitted last. [origin] says
    what [=] does to the cursor when no event was emitted yet. *)
Definition claimed_base (origin : tick_value -> tick_value) (st : state)
  (col1 : jsstring) : tick_value :=
  if str_eqb col1 (lit "=") then
    match last_note (data st) with
    | Some n => tick n
    | None => origin (currentTick st)
    end
  else currentTick st.

(** Every line of at least two fields whose first field has a delta moves
    the cursor to base plus delta, and an event it emits is the last one
    and stands on the new cursor. *)
Definition delta_law (origin : tick_value -> tick_value) : Prop :=
  forall unicode_upper st index line col1 field2 rest d,
    split_ws (trim line) = col1 :: field2 :: rest ->
    claimed_delta col1 d ->
    let st' := process_line unicode_upper st index line in
    currentTick st' = add (claimed_base origin st col1) (DNum d) /\
    (data st' = data st \/
     exists n, data st' = data st ++ [n] /\ tick n = currentTick st').

(** ** Silence *)





(** ** Provenance *)

(** The lines that emit an event: at least two fields, the second of which
    is not a silence once in upper case. *)
Definition emitting (unicode_upper : jsstring -> jsstring) (line : jsstring)
  : bool :=
  match split_ws (trim line) with
  | _ :: field2 :: _ =>
      let stringCode := toUpperCase unicode_upper field2 in
      negb (str_eqb stringCode (lit "S")
            || str_eqb stringCode (lit "SILENCE")
            || str_eqb stringCode (lit "SEP"))
  | _ => false
  end.

Fixpoint emitting_indices (unicode_upper : jsstring -> jsstring)
  (lines : list jsstring) (index : nat) : list nat :=
  match lines with
  | [] => []
  | line :: more =>
      if emitting unicode_upper line
      then index :: emitting_indices unicode_upper more (S index)
      else emitting_indices unicode_upper more (S index)
  end.

(** [line] produced [n]: processing it under the index recorded in [n]
    appends exactly [n], for some cursor and earlier events. *)
Definition produced_by (unicode_upper : jsstring -> jsstring)
  (line : jsstring) (n : ParsedNote) : Prop :=
  exists st,
    data (process_line unicode_upper st (lineIndex n) line) = data st ++ [n].

(** The recorded indices are those of the emitting lines among
    [numbered text], each once, and every event was produced by the line
    its index names. *)
Definition line_provenance (numbered : jsstring -> list jsstring) : Prop :=
  forall unicode_upper text,
    Permutation
      (map lineIndex (parseTablature unicode_upper text))
      (emitting_indices unicode_upper (numbered text) 0) /\
    forall n, In n (parseTablature unicode_upper text) ->
      exists line,
        nth_error (numbered text) (lineIndex n) = Some line /\
        produced_by unicode_upper line n.

(** ** Ordering *)

(** [a <= b] for two ticks that are numbers; a tick that is a text is no
    position on the timeline. *)
Definition tick_leb (a b : tick_value) : bool :=
  match a, b with
  | Num x, Num y => x <=? y
  | _, _ => false
  end.

Fixpoint non_decreasing (l : list tick_value) : bool :=
  match l with
  | a :: (b :: _) as r => tick_leb a b && non_decreasing r
  | _ => true
  end.

End Claims.

Module AudioClaims.

Import JS Audio.
Local Open Scope float_scope.

(** ** Quantization *)

(** The 16-bit value the specification gives to a clamped sample: the
    integer part of [s * 32768] when [s] is negative, of [s * 32767]
    otherwise. *)
Definition claimed_quantize (s : float) : Z :=
  if s <? 0 then truncate (s * 32768) else truncate (s * 32767).

(** ** What the offline render depends on *)

(** The inputs the specification fixes: note list, tuning, tempo and sample
    buffers. *)
Definition claimed_inputs (e1 e2 : AudioEngine) : Prop :=
  notes e1 = notes e2 /\
  currentTuning e1 = currentTuning e2 /\
  bpm e1 = bpm e2 /\
  stringBuffers e1 = stringBuffers e2.

(** The sample rate of the engine's context, if it has one. *)
Definition context_rate (e : AudioEngine) : option float :=
  option_map ctx_sampleRate (ctx e).

(** The same, with the speed multiplier and the sample rate of the
    context. *)
Definition render_inputs (e1 e2 : AudioEngine) : Prop :=
  claimed_inputs e1 e2 /\
  playbackSpeed e1 = playbackSpeed e2 /\
  context_rate e1 = context_rate e2.

(** Two engines that agree on the inputs render the same outcome, on every
    platform. *)
Definition render_determined_by (same : AudioEngine -> AudioEngine -> Prop)
  : Prop :=
  forall resolve_sample offline_mix e1 e2,
    same e1 e2 ->
    snd (renderProjectToBuffer resolve_sample offline_mix e1)
    = snd (renderProjectToBuffer resolve_sample offline_mix e2).

(** The number of samples of the buffer a render returned. *)
Definition rendered_length (rendered : outcome (option AudioBuffer)) : Z :=
  match rendered with
  | Returned (Some buffer) => Z.of_nat (length buffer)
  | _ => 0%Z
  end.

(** The blob an export returns for the outcome of the render. *)
Definition exported (encode : AudioBuffer -> Blob)
  (rendered : outcome (option AudioBuffer)) : outcome (option Blob) :=
  match rendered with
  | Thrown => Thrown
  | Returned None => Returned None
  | Returned (Some buffer) => Returned (Some (encode buffer))
  end.

(** ** A platform for the examples *)

(** A sample bank without any sample, an offline renderer that renders
    silence of the requested size (what the platform renders when no source
    was started), and an encoder that produces no byte. *)
Definition no_sample : float -> jsstring -> AudioBuffer :=
  fun rate _ => {| sampleRate := rate; length := 0; channels := [[]] |}.

Definition silence (request : OfflineRequest) : option (list (list float)) :=
  Some (repeat (repeat 0 (Z.to_nat (ToUint32 (req_length request))))
               (req_channels request)).

Definition mute_new : nat -> float -> float -> unit := fun _ _ _ => tt.

Definition mute_encode : unit -> list Z -> option (list Z) -> unit * list byte :=
  fun _ _ _ => (tt, []).

Definition mute_flush : unit -> list byte := fun _ => [].

(** An engine that was never started, at 120 beats a minute, holding the
    one note of the line "+ 1D" and no tuning. *)
Definition one_note : Parser.ParsedNote :=
  {| Parser.id := lit "note-0";
     Parser.tick := Parser.Num 12;
     Parser.duration := 0;
     Parser.stringId := lit "1D";
     Parser.doigt := Some (lit "P");
     Parser.message := None;
     Parser.isPageBreak := false;
     Parser.lineIndex := 0 |}.

Definition idle_engine (speed : float) : AudioEngine :=
  {| ctx := None; isPlaying := false; startTime := 0; bpm := 120;
     playbackSpeed := speed; notes := [one_note]; currentTuning := [];
     stringBuffers := []; samplesLoaded := false |}.

(** The same engine while it plays, started at second 5. *)
Definition playing_engine (speed : float) : AudioEngine :=
  {| ctx := None; isPlaying := true; startTime := 5; bpm := 120;
     playbackSpeed := speed; notes := [one_note]; currentTuning := [];
     stringBuffers := []; samplesLoaded := true |}.

(** An engine whose string 1D is tuned to E3, with a sample of E3 in its
    cache: idle, or playing since second 5. *)
Definition plucked : AudioBuffer :=
  {| sampleRate := 44100; length := 2; channels := [[0.5; -0.25]] |}.

Definition strung_engine (playing : bool) (speed : float) : AudioEngine :=
  {| ctx := None; isPlaying := playing;
     startTime := if playing then 5 else 0; bpm := 120;
     playbackSpeed := speed; notes := [one_note];
     currentTuning := [(lit "1D", lit "E3")];
     stringBuffers := [(lit "E3", plucked)]; samplesLoaded := true |}.

(** An engine whose string 1D is tuned to a note that is named toString. *)
Definition misnamed_engine (speed : float) : AudioEngine :=
  {| ctx := None; isPlaying := false; startTime := 0; bpm := 120;
     playbackSpeed := speed; notes := [one_note];
     currentTuning := [(lit "1D", lit "toString")];
     stringBuffers := []; samplesLoaded := false |}.

(** The value an export returned, [null] if it was left by an exception. *)
Definition returned_blob (o : outcome (option Blob)) : option Blob :=
  match o with
  | Returned blob => blob
  | Thrown => None
  end.

End AudioClaims.

Module Events.

Import JS Parser.
Local Open Scope float_scope.

(** ** The three kinds of event *)

(** A second field, in upper case, that is neither a command nor a
    silence: the position of a note. *)
Definition is_position (stringCode : jsstring) : bool :=
  negb (str_eqb stringCode (lit "TXT")
        || str_eqb stringCode (lit "PAGE")
        || str_eqb stringCode (lit "S")
        || str_eqb stringCode (lit "SILENCE")
        || str_eqb stringCode (lit "SEP")).

Definition is_fingering (d : jsstring) : Prop := d = lit "I" \/ d = lit "P".

(** What the parser pushes: a text with its message, a page break, or a
    note with its position and one of the two fingerings. *)
Inductive event_shape : ParsedNote -> Prop :=
| shape_text index t m :
    event_shape
      {| id := lit "txt-" ++ decimal index; tick := t; duration := 0;
         stringId := lit "TEXTE"; doigt := None; message := Some m;
         isPageBreak := false; lineIndex := index |}
| shape_page index t :
    event_shape
      {| id := lit "pg-" ++ decimal index; tick := t; duration := 0;
         stringId := lit "PAGE_BREAK"; doigt := None; message := None;
         isPageBreak := true; lineIndex := index |}
| shape_note index t position d :
    is_position position = true ->
    is_fingering d ->
    event_shape
      {| id := lit "note-" ++ decimal index; tick := t; duration := 0;
         stringId := position; doigt := Some d; message := None;
         isPageBreak := false; lineIndex := index |}.

(** ** Fingering *)

(** The fingering of a position when the line gives none: the index finger
    for the strings 4 to 6 of either hand, the thumb otherwise. *)
Definition default_fingering (position : jsstring) : jsstring :=
  match position with
  | [number; hand] =>
      if ((52 <=? number) && (number <=? 54)
          && ((hand =? 71) || (hand =? 68)))%N
      then lit "I" else lit "P"
  | _ => lit "P"
  end.

(** The fingering of a note: the third field when it is I or P in upper
    case, the default otherwise. *)
Definition chosen_fingering (position : jsstring)
  (field3 : option jsstring) : jsstring :=
  match field3 with
  | Some p3 =>
      if str_eqb p3 (lit "I") || str_eqb p3 (lit "P") then p3
      else default_fingering position
  | None => default_fingering position
  end.

End Events.

Module ExportModel.

Import JS Audio.
Local Open Scope float_scope.

(** ** The sample cache *)

(** [table[key]] is not [undefined]. *)
Definition has_entry {A} (table : list (jsstring * A)) (key : jsstring)
  : bool :=
  match get_property table key with
  | Undefined => false
  | _ => true
  end.

(** ** Reading a WAV file back *)

(** The number whose bytes are given, least significant first. *)
Fixpoint from_little_endian (bytes : list byte) : Z :=
  match bytes with
  | [] => 0
  | b :: more => b + 256 * from_little_endian more
  end%Z.

(** The field of [size] bytes at [offset]. *)
Definition field (offset size : nat) (file : list byte) : list byte :=
  firstn size (skipn offset file).

(** The two sizes that [bufferToWave] declares for [len] frames of
    [numOfChan] channels, read back from the bytes it writes for them: the
    size in the RIFF header and the size of the data chunk. *)
Definition declared_sizes (len numOfChan : Z) : Z * Z :=
  let length := of_Z len * of_Z numOfChan * 2 + 44 in
  let pos := 0 in
  (from_little_endian (setUint32 (length - 8)),
   from_little_endian (setUint32 (length - pos - 4))).

(** Both are what the file length [44 + 2 * len * numOfChan] gives, for no
    channel, one channel and two. *)
Definition sizes_checked (len : Z) : bool :=
  forallb
    (fun numOfChan =>
       let file_length := (44 + 2 * len * numOfChan)%Z in
       let (riff, data) := declared_sizes len numOfChan in
       ((riff =? file_length - 8) && (data =? file_length - 4))%Z)
    [0; 1; 2]%Z.

(** [p] holds of the [2 ^ k] integers from [lo] on. *)
Fixpoint all_from (k : nat) (lo : Z) (p : Z -> bool) : bool :=
  match k with
  | O => p lo
  | S k => all_from k lo p && all_from k (lo + 2 ^ Z.of_nat k)%Z p
  end.

(** ** Encoders that return what they are given *)

(** An encoder that returns the left block, or the right block, as the
    bytes it produced, and nothing on [flush]: the blob then shows which
    samples the encoder was given, and in which order. *)
Definition echo_new : nat -> float -> float -> unit := fun _ _ _ => tt.

Definition echo_left : unit -> list Z -> option (list Z) -> unit * list byte :=
  fun _ left _ => (tt, left).

Definition echo_right : unit -> list Z -> option (list Z) -> unit * list byte :=
  fun _ _ right =>
    (tt, match right with Some block => block | None => [] end).

Definition echo_flush : unit -> list byte := fun _ => [].

(** ** Examples *)

(** An engine with a context at 44100 Hz, tuned on two strings, whose
    cache is still empty. *)
Definition tuned_engine : AudioEngine :=
  {| ctx := Some {| ctx_sampleRate := 44100; currentTime := 0 |};
     isPlaying := false; startTime := 0; bpm := 120; playbackSpeed := 1;
     notes := [];
     currentTuning := [(lit "1D", lit "E3"); (lit "1G", lit "G3")];
     stringBuffers := []; samplesLoaded := false |}.

(** Two channels of three samples. *)
Definition stereo_buffer : AudioBuffer :=
  {| sampleRate := 44100; length := 3;
     channels := [[0.5; -0.75; 0]; [1; -1; 0.25]] |}.

End ExportModel.

Module Playback.

Import JS Audio.
Local Open Scope float_scope.

(** ** Two operations on numbers *)

(** [Math.ceil] *)
Definition ceil (x : float) : float := - floor (- x).

(** [n % d]: the remainder of the division truncated towards zero, with the
    sign of [n]; it is always a number, so it is computed exactly on the
    integers that [n] and [d] are multiples of. *)
Definition remainder (n d : float) : float :=
  match Prim2SF n, Prim2SF d with
  | S754_nan, _ | _, S754_nan => nan
  | S754_infinity _, _ => nan
  | _, S754_zero _ => nan
  | S754_zero _, _ => n
  | S754_finite _ _ _, S754_infinity _ => n
  | S754_finite s m e, S754_finite _ m' e' =>
      let unit_exponent := Z.min e e' in
      let dividend := Z.shiftl (Zpos m) (e - unit_exponent) in
      let divisor := Z.shiftl (Zpos m') (e' - unit_exponent) in
      let r := (dividend mod divisor)%Z in
      SF2Prim
        (binary_normalize prec emax (if s then - r else r)%Z unit_exponent s)
  end.

(** ** The state of a playback *)

(** The handles that [window.setTimeout] and [requestAnimationFrame]
    return: integers greater than zero, so a handle is never falsy. *)
Definition handle := positive.

Inductive rhythm := binary | ternary.

(** What the engine asks of the platform while it plays, in the order of
    the calls. A started source is listed with the note it was created for. *)
Inductive effect :=
| SourceStarted (note : Parser.ParsedNote) (buffer : AudioBuffer)
    (gain time : float) (recorded : bool)
| ShakerStarted (time : float) (accent : bool)
| TimeoutSet (id : handle)
| TimeoutCleared (id : handle)
| FrameRequested (id : handle)
| FrameCancelled (id : handle)
| SourceStopped
| TickReported (currentTick : float)
| EndReported.

(** The platform as the engine meets it: the handle the next timer and the
    next animation frame get, the number of calls of [Math.random] so far,
    and the calls made. *)
Record Platform := {
  timeouts : handle;
  frames : handle;
  draws : nat;
  trace : list effect
}.

(** The engine with the fields that playback reads or writes. Of
    [dest], [prerenderedSource] and the two callbacks only the presence is
    kept; a callback is taken not to call the engine back. *)
Record Player := {
  engine : AudioEngine;
  nextNoteIndex : nat;
  schedulerId : option handle;
  animationFrameId : option handle;
  isMetronomeEnabled : bool;
  nextBeatTime : float;
  currentBeatIndex : float;
  rhythmMode : rhythm;
  shakerBuffer : option AudioBuffer;
  dest : bool;
  prerenderedSource : bool;
  onTickCallback : bool;
  onEndedCallback : bool;
  platform : Platform
}.

Definition set_isPlaying (playing : bool) (e : AudioEngine) : AudioEngine :=
  {| ctx := ctx e; isPlaying := playing; startTime := startTime e;
     bpm := bpm e; playbackSpeed := playbackSpeed e; notes := notes e;
     currentTuning := currentTuning e; stringBuffers := stringBuffers e;
     samplesLoaded := samplesLoaded e |}.

Definition set_engine (e : AudioEngine) (p : Player) : Player :=
  {| engine := e; nextNoteIndex := nextNoteIndex p;
     schedulerId := schedulerId p; animationFrameId := animationFrameId p;
     isMetronomeEnabled := isMetronomeEnabled p;
     nextBeatTime := nextBeatTime p; currentBeatIndex := currentBeatIndex p;
     rhythmMode := rhythmMode p; shakerBuffer := shakerBuffer p;
     dest := dest p; prerenderedSource := prerenderedSource p;
     onTickCallback := onTickCallback p; onEndedCallback := onEndedCallback p;
     platform := platform p |}.

Definition set_nextNoteIndex (index : nat) (p : Player) : Player :=
  {| engine := engine p; nextNoteIndex := index;
     schedulerId := schedulerId p; animationFrameId := animationFrameId p;
     isMetronomeEnabled := isMetronomeEnabled p;
     nextBeatTime := nextBeatTime p; currentBeatIndex := currentBeatIndex p;
     rhythmMode := rhythmMode p; shakerBuffer := shakerBuffer p;
     dest := dest p; prerenderedSource := prerenderedSource p;
     onTickCallback := onTickCallback p; onEndedCallback := onEndedCallback p;
     platform := platform p |}.

Definition set_schedulerId (id : option handle) (p : Player) : Player :=
  {| engine := engine p; nextNoteIndex := nextNoteIndex p;
     schedulerId := id; animationFrameId := animationFrameId p;
     isMetronomeEnabled := isMetronomeEnabled p;
     nextBeatTime := nextBeatTime p; currentBeatIndex := currentBeatIndex p;
     rhythmMode := rhythmMode p; shakerBuffer := shakerBuffer p;
     dest := dest p; prerenderedSource := prerenderedSource p;
     onTickCallback := onTickCallback p; onEndedCallback := onEndedCallback p;
     platform := platform p |}.

Definition set_animationFrameId (id : option handle) (p : Player) : Player :=
  {| engine := engine p; nextNoteIndex := nextNoteIndex p;
     schedulerId := schedulerId p; animationFrameId := id;
     isMetronomeEnabled := isMetronomeEnabled p;
     nextBeatTime := nextBeatTime p; currentBeatIndex := currentBeatIndex p;
     rhythmMode := rhythmMode p; shakerBuffer := shakerBuffer p;
     dest := dest p; prerenderedSource := prerenderedSource p;
     onTickCallback := onTickCallback p; onEndedCallback := onEndedCallback p;
     platform := platform p |}.

Definition set_beat (time index : float) (p : Player) : Player :=
  {| engine := engine p; nextNoteIndex := nextNoteIndex p;
     schedulerId := schedulerId p; animationFrameId := animationFrameId p;
     isMetronomeEnabled := isMetronomeEnabled p;
     nextBeatTime := time; currentBeatIndex := index;
     rhythmMode := rhythmMode p; shakerBuffer := shakerBuffer p;
     dest := dest p; prerenderedSource := prerenderedSource p;
     onTickCallback := onTickCallback p; onEndedCallback := onEndedCallback p;
     platform := platform p |}.

Definition set_prerenderedSource (source : bool) (p : Player) : Player :=
  {| engine := engine p; nextNoteIndex := nextNoteIndex p;
     schedulerId := schedulerId p; animationFrameId := animationFrameId p;
     isMetronomeEnabled := isMetronomeEnabled p;
     nextBeatTime := nextBeatTime p; currentBeatIndex := currentBeatIndex p;
     rhythmMode := rhythmMode p; shakerBuffer := shakerBuffer p;
     dest := dest p; prerenderedSource := source;
     onTickCallback := onTickCallback p; onEndedCallback := onEndedCallback p;
     platform := platform p |}.

Definition set_platform (w : Platform) (p : Player) : Player :=
  {| engine := engine p; nextNoteIndex := nextNoteIndex p;
     schedulerId := schedulerId p; animationFrameId := animationFrameId p;
     isMetronomeEnabled := isMetronomeEnabled p;
     nextBeatTime := nextBeatTime p; currentBeatIndex := currentBeatIndex p;
     rhythmMode := rhythmMode p; shakerBuffer := shakerBuffer p;
     dest := dest p; prerenderedSource := prerenderedSource p;
     onTickCallback := onTickCallback p; onEndedCallback := onEndedCallback p;
     platform := w |}.

(** A call is made. *)
Definition emit (x : effect) (p : Player) : Player :=
  let w := platform p in
  set_platform
    {| timeouts := timeouts w; frames := frames w; draws := draws w;
       trace := trace w ++ [x] |} p.

(** [window.setTimeout(...)], [requestAnimationFrame(...)] and
    [Math.random()]: the call is made and the platform moves on. *)
Definition setTimeout (p : Player) : handle * Player :=
  let w := platform p in
  (timeouts w,
   set_platform
     {| timeouts := Pos.succ (timeouts w); frames := frames w;
        draws := draws w; trace := trace w ++ [TimeoutSet (timeouts w)] |} p).

Definition requestAnimationFrame (p : Player) : handle * Player :=
  let w := platform p in
  (frames w,
   set_platform
     {| timeouts := timeouts w; frames := Pos.succ (frames w);
        draws := draws w; trace := trace w ++ [FrameRequested (frames w)] |}
     p).

Definition drawn (p : Player) : Player :=
  let w := platform p in
  set_platform
    {| timeouts := timeouts w; frames := frames w; draws := S (draws w);
       trace := trace w |} p.

(** The clock of the context shows [t]. *)
Definition at_time (t : float) (p : Player) : Player :=
  let e := engine p in
  set_engine
    {| ctx :=
         option_map
           (fun c => {| ctx_sampleRate := ctx_sampleRate c; currentTime := t |})
           (ctx e);
       isPlaying := isPlaying e; startTime := startTime e; bpm := bpm e;
       playbackSpeed := playbackSpeed e; notes := notes e;
       currentTuning := currentTuning e; stringBuffers := stringBuffers e;
       samplesLoaded := samplesLoaded e |} p.

(** ** [stop] *)

Definition stop (p : Player) : Player :=
  let p := set_engine (set_isPlaying false (engine p)) p in
  let p :=
    match schedulerId p with
    | Some id => set_schedulerId None (emit (TimeoutCleared id) p)
    | None => p
    end in
  let p :=
    match animationFrameId p with
    | Some id => set_animationFrameId None (emit (FrameCancelled id) p)
    | None => p
    end in
  if prerenderedSource p
  then set_prerenderedSource false (emit SourceStopped p)
  else p.

(** ** [updateTickUI] *)

Definition updateTickUI (p : Player) : Player :=
  let e := engine p in
  match isPlaying e, ctx e with
  | true, Some c =>
      let effectiveBpm := bpm e * playbackSpeed e in
      let secondsPerTick := (60 / effectiveBpm) / 12 in
      let currentTick := (currentTime c - startTime e) / secondsPerTick in
      let p :=
        if onTickCallback p then emit (TickReported currentTick) p else p in
      let (id, p) := requestAnimationFrame p in
      set_animationFrameId (Some id) p
  | _, _ => p
  end.

(** ** [schedule] *)

(** A call that returned, or one that an exception left, with the state it
    leaves. *)
Inductive run :=
| Finished (p : Player)
| Raised (p : Player).

Section Scheduler.

(** [Math.random()]: the value of each call, in the order of the calls. *)
Variable random : nat -> float.

(** Whether the platform accepts the time at which a source is started
    ([source.start(time)] in [playNote]) and the times at which a beat is
    scheduled (the calls on the gain and the source in [playShaker]); it
    raises an exception otherwise. *)
Variable start_accepts : float -> bool.
Variable shaker_accepts : float -> bool.

Definition playShaker (time : float) (accent : bool) (buffer : AudioBuffer)
  (p : Player) : run :=
  if shaker_accepts time then Finished (emit (ShakerStarted time accent) p)
  else Raised p.

(** [playNote] as [schedule] calls it, on the context of the engine. A note
    that is late by more than 50 ms, whose string has no note name or whose
    note name has no buffer is left out. Assigning to [source.buffer] an
    inherited member found in [stringBuffers] raises a [TypeError]. A tuning
    entry that is itself an inherited member names no buffer. *)
Definition playNote (c : AudioContext) (note : Parser.ParsedNote)
  (time : float) (p : Player) : run :=
  if time <? currentTime c - 0.05 then Finished p
  else
    match get_property (currentTuning (engine p)) (Parser.stringId note) with
    | Own ((_ :: _) as noteName) =>
        match get_property (stringBuffers (engine p)) noteName with
        | Undefined => Finished p
        | Inherited _ => Raised p
        | Own buffer =>
            let velocity := 0.35 + random (draws (platform p)) * 0.1 in
            let p := drawn p in
            let recorded := dest p && negb (prerenderedSource p) in
            if start_accepts time
            then Finished (emit (SourceStarted note buffer velocity time
                                   recorded) p)
            else Raised p
        end
    | _ => Finished p
    end.

(** The loop of the metronome, lines 271 to 279. It need not end: [fuel]
    bounds the number of its rounds, and [None] tells that it was used up. *)
Fixpoint beats (fuel : nat) (c : AudioContext)
  (secondsPerBeat beatsPerMeasure : float) (p : Player) : option run :=
  if nextBeatTime p <? currentTime c + 0.4 then
    match fuel with
    | O => None
    | S fuel =>
        let played :=
          if currentTime c - 0.05 <=? nextBeatTime p then
            let normalizedBeatIndex :=
              remainder
                (remainder (currentBeatIndex p) beatsPerMeasure
                 + beatsPerMeasure)
                beatsPerMeasure in
            let isAccent := normalizedBeatIndex =? 0 in
            match shakerBuffer p with
            | Some buffer => playShaker (nextBeatTime p) isAccent buffer p
            | None => Finished p
            end
          else Finished p in
        match played with
        | Raised p => Some (Raised p)
        | Finished p =>
            beats fuel c secondsPerBeat beatsPerMeasure
              (set_beat (nextBeatTime p + secondsPerBeat)
                        (currentBeatIndex p + 1) p)
        end
    end
  else Some (Finished p).

(** The loop of the notes, lines 282 to 292, on the notes from
    [nextNoteIndex] on. *)
Fixpoint due_notes (c : AudioContext) (secondsPerTick : float)
  (pending : list Parser.ParsedNote) (p : Player) : run :=
  match pending with
  | [] => Finished p
  | note :: more =>
      let noteTime :=
        startTime (engine p)
        + Parser.ToNumber (Parser.tick note) * secondsPerTick in
      if noteTime <? currentTime c + 0.4 then
        match playNote c note noteTime p with
        | Raised p => Raised p
        | Finished p =>
            due_notes c secondsPerTick more
              (set_nextNoteIndex (S (nextNoteIndex p)) p)
        end
      else Finished p
  end.

(** Lines 294 to 310: the end of the playback, or the next timer. *)
Definition ended (p : Player) : Player :=
  let p := stop p in
  if onEndedCallback p then emit EndReported p else p.

Definition rearmed (p : Player) : Player :=
  let (id, p) := setTimeout p in
  set_schedulerId (Some id) p.

Definition end_or_rearm (c : AudioContext) (secondsPerTick : float)
  (p : Player) : Player :=
  let e := engine p in
  if Nat.leb (List.length (notes e)) (nextNoteIndex p) then
    match Parser.last_note (notes e) with
    | Some lastNote =>
        let endTime :=
          startTime e
          + Parser.ToNumber (Parser.tick lastNote) * secondsPerTick + 0.5 in
        if endTime <? currentTime c then ended p else rearmed p
    | None => ended p
    end
  else rearmed p.

Definition schedule (fuel : nat) (p : Player) : option run :=
  let e := engine p in
  match isPlaying e, ctx e with
  | true, Some c =>
      let effectiveBpm := bpm e * playbackSpeed e in
      let secondsPerTick := (60 / effectiveBpm) / 12 in
      let secondsPerBeat := 60 / effectiveBpm in
      let beatsPerMeasure :=
        match rhythmMode p with binary => 4 | ternary => 3 end in
      let metronome :=
        if isMetronomeEnabled p
        then beats fuel c secondsPerBeat beatsPerMeasure p
        else Some (Finished p) in
      match metronome with
      | None => None
      | Some (Raised p) => Some (Raised p)
      | Some (Finished p) =>
          match
            due_notes c secondsPerTick
              (skipn (nextNoteIndex p) (notes (engine p))) p
          with
          | Raised p => Some (Raised p)
          | Finished p => Some (Finished (end_or_rearm c secondsPerTick p))
          end
      end
  | _, _ => Some (Finished p)
  end.

(** ** Callbacks of the platform *)

(** The timer of [schedule] or the animation frame of [updateTickUI] comes
    due when the clock of the context shows [t]. *)
Inductive callback :=
| Timer (t : float)
| Frame (t : float).

(** The state a call leaves, whether it returned or raised. *)
Definition left_by (r : run) : Player :=
  match r with
  | Finished p => p
  | Raised p => p
  end.

(** A sequence of callbacks; an exception raised by one of them is reported
    by the platform and the next one runs. *)
Fixpoint callbacks (fuel : nat) (l : list callback) (p : Player)
  : option Player :=
  match l with
  | [] => Some p
  | Timer t :: more =>
      match schedule fuel (at_time t p) with
      | None => None
      | Some r => callbacks fuel more (left_by r)
      end
  | Frame t :: more => callbacks fuel more (updateTickUI (at_time t p))
  end.

End Scheduler.

(** ** Reading a trace *)

(** The notes of the sources started, in the order of the calls. *)
Fixpoint started (calls : list effect) : list Parser.ParsedNote :=
  match calls with
  | [] => []
  | SourceStarted note _ _ _ _ :: more => note :: started more
  | _ :: more => started more
  end.

(** [s] is [l] with some of its elements left out. *)
Inductive subsequence {A} : list A -> list A -> Prop :=
| subsequence_nil : subsequence [] []
| subsequence_keep x s l : subsequence s l -> subsequence (x :: s) (x :: l)
| subsequence_drop x s l : subsequence s l -> subsequence s (x :: l).

(** From [p] to [p'] the note list is the same, [nextNoteIndex] has not
    gone back nor past the end of the list, and the sources started in
    between are for notes between the two indices, each at most once and in
    the order of the list. *)
Definition advanced (p p' : Player) : Prop :=
  let n := nextNoteIndex p in
  let n' := nextNoteIndex p' in
  notes (engine p') = notes (engine p) /\
  (n <= n')%nat /\
  (n' <= Nat.max n (List.length (notes (engine p))))%nat /\
  exists new,
    trace (platform p') = trace (platform p) ++ new /\
    subsequence (started new) (firstn (n' - n) (skipn n (notes (engine p)))).

(** From [p] to [p'] the engine, the two handles, the metronome switch and
    the callback of the end are the same. *)
Definition undisturbed (p p' : Player) : Prop :=
  engine p' = engine p /\
  schedulerId p' = schedulerId p /\
  animationFrameId p' = animationFrameId p /\
  isMetronomeEnabled p' = isMetronomeEnabled p /\
  onEndedCallback p' = onEndedCallback p.

(** From [p] to [p'] nothing was started and the position in the note list
    is the same. *)
Definition silent (p p' : Player) : Prop :=
  notes (engine p') = notes (engine p) /\
  nextNoteIndex p' = nextNoteIndex p /\
  exists new,
    trace (platform p') = trace (platform p) ++ new /\ started new = [].

(** ** Examples *)

(** A platform on which nothing was called yet, a [Math.random] that always
    returns 0.5, and a platform that accepts the times that are not
    negative. *)
Definition fresh_platform : Platform :=
  {| timeouts := 1%positive; frames := 1%positive; draws := 0%nat;
     trace := [] |}.



(** The engine [e] on a context at 44100 Hz, playing its notes [ns] from
    the first one since second 0.1, without metronome and without
    callbacks. *)
Definition playing (ns : list Parser.ParsedNote) (e : AudioEngine) : Player :=
  {| engine :=
       {| ctx := Some {| ctx_sampleRate := 44100; currentTime := 0 |};
          isPlaying := true; startTime := 0.1; bpm := bpm e;
          playbackSpeed := playbackSpeed e; notes := ns;
          currentTuning := currentTuning e;
          stringBuffers := stringBuffers e; samplesLoaded := true |};
     nextNoteIndex := 0%nat; schedulerId := None; animationFrameId := None;
     isMetronomeEnabled := false; nextBeatTime := 0; currentBeatIndex := 0;
     rhythmMode := binary; shakerBuffer := None; dest := true;
     prerenderedSource := false; onTickCallback := false;
     onEndedCallback := false; platform := fresh_platform |}.



End Playback.

(* ===================================================================== *)
(** * Proofs: the parser *)
(* ===================================================================== *)

Module ParserProofs.

Import JS Parser Claims.
Local Open Scope float_scope.

(** ** Strings *)

Lemma str_eqb_refl (a : jsstring) : str_eqb a a = true.
Proof.
  induction a as [|c a IH]; simpl; [reflexivity|].
  unfold code_unit_eqb. rewrite N.eqb_refl. exact IH.
Qed.

Lemma str_eqb_eq (a b : jsstring) : str_eqb a b = true <-> a = b.
Proof.
  split.
  - revert b. induction a as [|x a IH]; intros [|y b] H; simpl in H;
      try discriminate; [reflexivity|].
    apply andb_true_iff in H. destruct H as [Hxy Hab].
    apply N.eqb_eq in Hxy. subst y. f_equal. apply IH. exact Hab.
  - intros ->. apply str_eqb_refl.
Qed.

(** ** One line *)

(** Whatever the second field is, a line of two fields or more moves the
    cursor to [cursor + thisDelta], and what it pushes stands there and
    carries the index of the line. *)
Lemma process_line_shape up st index line col1 field2 rest :
  split_ws (trim line) = col1 :: field2 :: rest ->
  let st' := process_line up st index line in
  currentTick st' = add (fst (detect_delta st col1)) (snd (detect_delta st col1))
  /\ (data st' = data st \/
      exists n, data st' = data st ++ [n] /\ tick n = currentTick st'
                /\ lineIndex n = index).
Proof.
  intros Hparts. unfold process_line. rewrite Hparts.
  destruct (detect_delta st col1) as [cursor thisDelta]. simpl fst. simpl snd.
  destruct (str_eqb (toUpperCase up field2) (lit "TXT")).
  { simpl. split; [reflexivity|]. right. eexists. repeat split. }
  destruct (str_eqb (toUpperCase up field2) (lit "PAGE")).
  { simpl. split; [reflexivity|]. right. eexists. repeat split. }
  destruct (str_eqb (toUpperCase up field2) (lit "S")
            || str_eqb (toUpperCase up field2) (lit "SILENCE")
            || str_eqb (toUpperCase up field2) (lit "SEP")).
  { simpl. split; [reflexivity|]. left. reflexivity. }
  simpl. split; [reflexivity|]. right. eexists. repeat split.
Qed.

(** The if-chain of [detect_delta] gives every first field of the
    specification its delta, and leaves the cursor alone when [=] finds no
    event. *)
Lemma detect_delta_claimed st col1 d :
  claimed_delta col1 d ->
  detect_delta st col1 = (claimed_base (fun cursor => cursor) st col1, DNum d).
Proof.
  intros Hd. destruct Hd as [col1 Hnum | s v Hin | s v Hin | ].
  - unfold detect_delta, claimed_base.
    destruct (str_eqb col1 (lit "=")) eqn:Heq.
    + apply str_eqb_eq in Heq. subst col1. discriminate Hnum.
    + rewrite Hnum. reflexivity.
  - simpl in Hin.
    repeat (destruct Hin as [Hin | Hin];
            [injection Hin as <- <-; vm_compute; reflexivity|]).
    contradiction.
  - simpl in Hin.
    repeat (destruct Hin as [Hin | Hin];
            [injection Hin as <- <-; vm_compute; reflexivity|]).
    contradiction.
  - unfold detect_delta, claimed_base. simpl.
    destruct (last_note (data st)); reflexivity.
Qed.

(** A hypothesis equating two ticks is refuted by a test that tells them
    apart once evaluated. *)
Ltac refute_by test H :=
  apply (f_equal test) in H; vm_compute in H; discriminate H.

(** ** The delta of a line *)

(** C1, amended: a line of two fields or more whose first field is a numeric
    literal, a duration symbol, a dotted duration symbol or [=] moves the
    cursor to base plus delta, where the delta is the literal's value, the
    symbol's ticks (12, 6, 4, 3, 48, 24), the floor of 1.5 times them, or 0,
    and the base is the cursor, except that [=] first moves the cursor to
    the tick of the event emitted last and leaves it where it is when no
    event exists yet; an event the line emits stands on the new cursor. The
    lines "+ 1D", U+266A " 2G", "= 3D" give the ticks 12, 18, 18, and
    "+. 1D" alone gives 18. *)
Theorem delta_resolution :
  delta_law (fun cursor => cursor) /\
  (forall up,
     ticks_of (parseTablature up
       (unlines [lit "+ 1D"; EIGHTH_NOTE ++ lit " 2G"; lit "= 3D"]))
     = [Num 12; Num 18; Num 18]) /\
  (forall up, ticks_of (parseTablature up (lit "+. 1D")) = [Num 18]).
Proof.
  split; [|split].
  - intros up st index line col1 field2 rest d Hparts Hd st'.
    destruct (process_line_shape up st index line col1 field2 rest Hparts)
      as [Hcursor Hdata].
    fold st' in Hcursor, Hdata.
    rewrite (detect_delta_claimed st col1 d Hd) in Hcursor.
    split; [exact Hcursor|].
    destruct Hdata as [Hsame | [n [Hpush [Htick _]]]].
    + left. exact Hsame.
    + right. exists n. split; assumption.
  - intros up. vm_compute. reflexivity.
  - intros up. vm_compute. reflexivity.
Qed.

(** The law at the line "+ 1D" read at the start of a text. *)
Lemma delta_resolution_witness :
  let st' := process_line no_mapping initial_state 0 (lit "+ 1D") in
  currentTick st' =
    add (claimed_base (fun cursor => cursor) initial_state (lit "+"))
        (DNum (of_Z 12)) /\
  (data st' = data initial_state \/
   exists n, data st' = data initial_state ++ [n] /\ tick n = currentTick st').
Proof.
  exact (proj1 delta_resolution no_mapping initial_state 0%nat (lit "+ 1D")
           (lit "+") (lit "1D") [] (of_Z 12) eq_refl
           (delta_symbol (lit "+") 12%Z (or_introl eq_refl))).
Defined.

(** C1 as stated fails: after the silence "+ S" the cursor is 12 and no
    event exists, and the line "= 1D" lands on 12, not on the origin. *)
Lemma delta_origin_counterexample :
  ticks_of (parseTablature no_mapping (unlines [lit "+ S"; lit "= 1D"]))
  = [Num 12] /\
  ~ delta_law (fun _ => Num 0).
Proof.
  split; [vm_compute; reflexivity|].
  intros Hlaw.
  destruct (Hlaw no_mapping
              (forEach_line no_mapping [lit "+ S"] 0 initial_state)
              1%nat (lit "= 1D") (lit "=") (lit "1D") [] 0
              eq_refl delta_equal) as [Hcursor _].
  refute_by (is_number 12) Hcursor.
Qed.

(** ** The fallback delta *)

(** A first field that is not [=], not a numeric literal, and that the
    table knows neither as it stands nor without a final dot, be it as an
    own or as an inherited property, gets 12 ticks. *)
Lemma fallback_delta st col1 :
  str_eqb col1 (lit "=") = false ->
  is_decimal_literal col1 = false ->
  get_property SYMBOLS_DURATION col1 = Undefined ->
  (endsWith_dot col1 = true ->
   get_property SYMBOLS_DURATION (slice_0_m1 col1) = Undefined) ->
  detect_delta st col1 = (currentTick st, DNum 12).
Proof.
  intros Heq Hnum Hsym Hdot. unfold detect_delta.
  rewrite Heq, Hnum, Hsym.
  destruct (endsWith_dot col1); [rewrite (Hdot eq_refl)|]; reflexivity.
Qed.

(** C6, the code at the failing input: "xyz 1D" gets the fallback of 12
    ticks, but "toString 1D" does not. [SYMBOLS_DURATION["toString"]] is the
    method every object inherits, so the branch of the known symbols is
    taken, the delta is that function, and the tick is the text made of "0"
    and the function's source text; with a final dot the tick is [NaN]. *)
Theorem fallback_misses_inherited_names :
  forall up,
    ticks_of (parseTablature up (lit "xyz 1D")) = [Num 12] /\
    ticks_of (parseTablature up (lit "toString 1D"))
    = [Text [PNumber 0; PMember (lit "toString")]] /\
    ticks_of (parseTablature up (lit "toString. 1D")) = [Num nan].
Proof.
  intros up. repeat split; vm_compute; reflexivity.
Qed.

(** ** Ordering *)

(** C2, the code at the failing input: after "+ 1D" at tick 12, the line
    "toString. 2D" is given the tick [NaN] (the lookup of "toString" in
    [SYMBOLS_DURATION] finds the inherited method, as for C6), the
    comparator of the sort returns [NaN] and moves nothing, and the returned
    ticks 12, [NaN] are not in non-decreasing order. *)
Theorem inherited_name_breaks_ordering :
  forall up,
    let result :=
      parseTablature up (unlines [lit "+ 1D"; lit "toString. 2D"]) in
    ticks_of result = [Num 12; Num nan] /\
    map lineIndex result = [0; 1]%nat /\
    non_decreasing (ticks_of result) = false.
Proof.
  intros up. repeat split; vm_compute; reflexivity.
Qed.

(** ** Silence *)






(** ** Provenance *)

Lemma insert_note_perm x l : Permutation (insert_note x l) (x :: l).
Proof.
  induction l as [|y l IH]; simpl; [apply Permutation_refl|].
  destruct (0 <? compare_ticks x y).
  - apply perm_trans with (y :: x :: l).
    + apply perm_skip. exact IH.
    + apply perm_swap.
  - apply Permutation_refl.
Qed.

Lemma sort_by_tick_perm l : Permutation (sort_by_tick l) l.
Proof.
  induction l as [|x l IH]; simpl; [apply perm_nil|].
  apply perm_trans with (x :: sort_by_tick l).
  - apply insert_note_perm.
  - apply perm_skip. exact IH.
Qed.

(** A line pushes nothing, or is an emitting line and pushes one event
    that carries its index. *)
Lemma process_line_cases up st index line :
  (emitting up line = false /\
   data (process_line up st index line) = data st) \/
  (emitting up line = true /\
   exists n, data (process_line up st index line) = data st ++ [n]
             /\ lineIndex n = index).
Proof.
  unfold emitting, process_line.
  destruct (split_ws (trim line)) as [|col1 [|field2 rest]];
    [left; split; reflexivity | left; split; reflexivity |].
  destruct (detect_delta st col1) as [cursor thisDelta].
  destruct (str_eqb (toUpperCase up field2) (lit "TXT")) eqn:Htxt.
  { apply str_eqb_eq in Htxt. rewrite Htxt. right. split; [reflexivity|].
    eexists. split; reflexivity. }
  destruct (str_eqb (toUpperCase up field2) (lit "PAGE")) eqn:Hpage.
  { apply str_eqb_eq in Hpage. rewrite Hpage. right. split; [reflexivity|].
    eexists. split; reflexivity. }
  destruct (str_eqb (toUpperCase up field2) (lit "S")
            || str_eqb (toUpperCase up field2) (lit "SILENCE")
            || str_eqb (toUpperCase up field2) (lit "SEP")).
  - left. split; reflexivity.
  - right. split; [reflexivity|]. eexists. split; reflexivity.
Qed.

Lemma forEach_line_indices up lines : forall index st,
  map lineIndex (data (forEach_line up lines index st))
  = map lineIndex (data st) ++ emitting_indices up lines index.
Proof.
  induction lines as [|line more IH]; intros index st; simpl.
  - symmetry. apply app_nil_r.
  - rewrite IH.
    destruct (process_line_cases up st index line)
      as [[Hemit Hdata] | [Hemit [n [Hdata Hindex]]]];
      rewrite Hemit, Hdata.
    + reflexivity.
    + rewrite map_app, <- app_assoc. simpl. rewrite Hindex. reflexivity.
Qed.

Lemma forEach_line_provenance up lines : forall index st n,
  In n (data (forEach_line up lines index st)) ->
  In n (data st) \/
  exists k line,
    nth_error lines k = Some line /\ lineIndex n = (index + k)%nat /\
    produced_by up line n.
Proof.
  induction lines as [|line more IH]; intros index st n Hin; simpl in Hin.
  - left. exact Hin.
  - destruct (IH _ _ _ Hin) as [Hold | [k [l [Hk [Hidx Hprod]]]]].
    + destruct (process_line_cases up st index line)
        as [[_ Hdata] | [_ [m [Hdata Hindex]]]]; rewrite Hdata in Hold.
      * left. exact Hold.
      * apply in_app_or in Hold. destruct Hold as [Hold | [<- | []]].
        -- left. exact Hold.
        -- right. exists 0%nat, line. split; [reflexivity|].
           split; [rewrite Hindex; apply plus_n_O|].
           exists st. rewrite Hindex. exact Hdata.
    + right. exists (S k), l. split; [exact Hk|].
      split; [rewrite Hidx; apply plus_n_Sm | exact Hprod].
Qed.

(** C4, amended: the line indices recorded in the events returned for a
    text are exactly the indices, in the list of lines of the trimmed text,
    of the lines that emit an event, each once; every event was produced by
    the line of the trimmed text that its index names. Lines of fewer than
    two fields and silences record nothing. *)
Theorem line_index_provenance : line_provenance lines_of.
Proof.
  intros up text.
  assert (Hall : forall n, In n (parseTablature up text) ->
          text <> [] /\
          In n (data (forEach_line up (lines_of text) 0 initial_state))).
  { intros n Hin. unfold parseTablature in Hin.
    destruct text as [|c text]; [destruct Hin|].
    split; [discriminate|].
    apply (Permutation_in _ (sort_by_tick_perm _)). exact Hin. }
  split.
  - unfold parseTablature. destruct text as [|c text].
    + vm_compute. apply perm_nil.
    + apply perm_trans with
        (map lineIndex
           (data (forEach_line up (lines_of (c :: text)) 0 initial_state))).
      * apply Permutation_map. apply sort_by_tick_perm.
      * rewrite forEach_line_indices. simpl. apply Permutation_refl.
  - intros n Hin. destruct (Hall n Hin) as [_ Hdata].
    destruct (forEach_line_provenance up _ _ _ _ Hdata)
      as [[] | [k [line [Hk [Hidx Hprod]]]]].
    exists line. simpl in Hidx. rewrite Hidx. split; assumption.
Qed.

(** The text "+ S", "+ 1D": the one event carries index 1 and was produced
    by the second line. *)
Lemma line_index_provenance_witness :
  exists line,
    nth_error (lines_of (unlines [lit "+ S"; lit "+ 1D"])) 1 = Some line /\
    produced_by no_mapping line second_line_note.
Proof.
  exact (proj2 (line_index_provenance no_mapping
                  (unlines [lit "+ S"; lit "+ 1D"]))
               second_line_note (or_introl eq_refl)).
Defined.

(** C4 as stated fails: the indices are not those of the lines of the
    original text. In the text made of an empty line and of "+ 1D", the
    event of "+ 1D", the line of index 1, records index 0, because the text
    is trimmed before it is split. *)
Lemma line_index_counterexample :
  map lineIndex (parseTablature no_mapping (unlines [[]; lit "+ 1D"]))
  = [0%nat] /\
  emitting_indices no_mapping (split_on 10%N (unlines [[]; lit "+ 1D"])) 0
  = [1%nat] /\
  ~ line_provenance (split_on 10%N).
Proof.
  split; [vm_compute; reflexivity|].
  split; [vm_compute; reflexivity|].
  intros Hclaim.
  destruct (Hclaim no_mapping (unlines [[]; lit "+ 1D"])) as [Hperm _].
  vm_compute in Hperm.
  apply Permutation_length_1 in Hperm. discriminate Hperm.
Qed.

(** ** Further properties of the parser *)

Lemma fallback_delta_witness :
  detect_delta initial_state (lit "xyz") = (currentTick initial_state, DNum 12).
Proof.
  apply (fallback_delta initial_state (lit "xyz"));
    [reflexivity | reflexivity | reflexivity | discriminate].
Defined.

Lemma trimStart_white s :
  forallb is_white_space s = true -> trimStart s = [].
Proof.
  induction s as [|c s IH]; simpl; [reflexivity|].
  intros H. apply andb_true_iff in H. destruct H as [Hc Hs].
  rewrite Hc. apply IH. exact Hs.
Qed.

(** X2: a text made of white space only, or empty, parses to no event. *)
Theorem blank_text_parses_to_nothing up text :
  forallb is_white_space text = true -> parseTablature up text = [].
Proof.
  intros Hblank. unfold parseTablature, lines_of, trim.
  destruct text as [|c text]; [reflexivity|].
  rewrite (trimStart_white _ Hblank). reflexivity.
Qed.

Lemma blank_text_parses_to_nothing_witness :
  parseTablature no_mapping (lit "   ") = [].
Proof.
  exact (blank_text_parses_to_nothing no_mapping (lit "   ") eq_refl).
Defined.

(** The fingering of a note is the thumb for "1G", the index for "4G", and
    the third field when it is I or P in any case. *)
Example fingering_default_and_override :
  forall up,
    map doigt (parseTablature up (lit "+ 1G")) = [Some (lit "P")] /\
    map doigt (parseTablature up (lit "+ 4G")) = [Some (lit "I")] /\
    map doigt (parseTablature up (lit "+ 1G I")) = [Some (lit "I")] /\
    map doigt (parseTablature up (lit "+ 4g p")) = [Some (lit "P")] /\
    map doigt (parseTablature up (lit "+ 4G x")) = [Some (lit "I")].
Proof.
  intros up. repeat split; vm_compute; reflexivity.
Qed.

End ParserProofs.

(* ===================================================================== *)
(** * Proofs: the audio engine *)
(* ===================================================================== *)

Module AudioProofs.

Import JS Audio AudioClaims.
Local Open Scope float_scope.

(** ** Quantization of the WAV export *)

(** C3, the code at the failing input: the sample -0.25 is left as it is by
    the clamp and written as -8191, the integer part of -0.25 * 32767,
    where the specification asks for that of -0.25 * 32768, -8192. The test
    of line 41 is [0.5 + sample < 0], so only samples below -0.5 are scaled
    by 32768; [exportMp3] tests [val < 0] and gives -8192. The two bytes
    written are those of -8191. *)
Theorem wave_scaling_threshold :
  clamp (-0.25) = -0.25 /\
  wave_sample (-0.25) = (-8191)%Z /\
  claimed_quantize (clamp (-0.25)) = (-8192)%Z /\
  mp3_sample (-0.25) = (-8192)%Z /\
  skipn 44 (blob_bytes (bufferToWave
     {| sampleRate := 44100; length := 1; channels := [[-0.25]] |} 1))
  = [1; 224]%Z.
Proof.
  repeat split; vm_compute; reflexivity.
Qed.

(** The two scalings agree outside the interval from -0.5 to 0: here at
    -0.75 and at 0.25. *)
Lemma wave_scaling_elsewhere :
  wave_sample (-0.75) = claimed_quantize (clamp (-0.75)) /\
  wave_sample 0.25 = claimed_quantize (clamp 0.25).
Proof.
  split; vm_compute; reflexivity.
Qed.

(** ** The current tick *)

(** C10: without an audio context, or when the engine is not playing,
    [getCurrentTick] returns 0; it is a total function of the engine. *)
Theorem getCurrentTick_idle (e : AudioEngine) :
  ctx e = None \/ isPlaying e = false -> getCurrentTick e = 0.
Proof.
  intros [Hctx | Hplaying]; unfold getCurrentTick.
  - rewrite Hctx. reflexivity.
  - rewrite Hplaying. destruct (ctx e); reflexivity.
Qed.

Lemma getCurrentTick_idle_witness : getCurrentTick (idle_engine 2) = 0.
Proof.
  exact (getCurrentTick_idle (idle_engine 2) (or_introl eq_refl)).
Defined.

(** ** What the offline render depends on *)

Lemma start_sources_ext e1 e2 secondsPerTick ns :
  currentTuning e1 = currentTuning e2 ->
  stringBuffers e1 = stringBuffers e2 ->
  start_sources e1 secondsPerTick ns = start_sources e2 secondsPerTick ns.
Proof.
  intros Htuning Hbuffers.
  induction ns as [|note more IH]; simpl; [reflexivity|].
  rewrite Htuning, Hbuffers, IH. reflexivity.
Qed.

Section Render.

Variable resolve_sample : float -> jsstring -> AudioBuffer.
Variable offline_mix : OfflineRequest -> option (list (list float)).

Local Abbreviation load := (loadSamples resolve_sample).

(** [loadSamples] touches [stringBuffers] and [samplesLoaded] only, and the
    buffers it leaves depend on the tuning, the buffers present and the
    sample rate of the context. *)
Lemma loadSamples_frame e :
  notes (load e) = notes e /\
  bpm (load e) = bpm e /\
  playbackSpeed (load e) = playbackSpeed e /\
  currentTuning (load e) = currentTuning e /\
  context_rate (load e) = context_rate e.
Proof.
  unfold loadSamples, context_rate.
  destruct (ctx e) as [c|] eqn:Hctx; simpl; rewrite ?Hctx;
    repeat split; reflexivity.
Qed.

Lemma loadSamples_buffers e1 e2 :
  currentTuning e1 = currentTuning e2 ->
  stringBuffers e1 = stringBuffers e2 ->
  context_rate e1 = context_rate e2 ->
  stringBuffers (load e1) = stringBuffers (load e2).
Proof.
  unfold loadSamples, context_rate. intros Htuning Hbuffers Hrate.
  destruct (ctx e1) as [c1|], (ctx e2) as [c2|]; simpl in Hrate |- *;
    try discriminate Hrate; [|exact Hbuffers].
  injection Hrate as Hrate. rewrite Htuning, Hbuffers, Hrate. reflexivity.
Qed.

(** The sample rate of the render is that of the context, 44100 without
    one. *)
Lemma render_rate e :
  match ctx e with
  | Some c => ctx_sampleRate c
  | None => 44100
  end
  = match context_rate e with
    | Some rate => rate
    | None => 44100
    end.
Proof. unfold context_rate. destruct (ctx e); reflexivity. Qed.

(** The outcome of the render is decided by the notes, the tuning, the
    tempo, the sample buffers, the speed multiplier and the sample rate of
    the context. *)
Lemma render_same_inputs e1 e2 :
  render_inputs e1 e2 ->
  snd (renderProjectToBuffer resolve_sample offline_mix e1)
  = snd (renderProjectToBuffer resolve_sample offline_mix e2).
Proof.
  intros [[Hnotes [Htuning [Hbpm Hbuffers]]] [Hspeed Hrate]].
  unfold renderProjectToBuffer.
  destruct (loadSamples_frame e1) as [L1n [L1b [L1s [L1t L1r]]]].
  destruct (loadSamples_frame e2) as [L2n [L2b [L2s [L2t L2r]]]].
  pose proof (loadSamples_buffers e1 e2 Htuning Hbuffers Hrate) as Hloaded.
  rewrite !render_rate, L1n, L2n, L1b, L2b, L1s, L2s, L1r, L2r.
  rewrite (start_sources_ext (load e1) (load e2));
    [|rewrite L1t, L2t; exact Htuning | exact Hloaded].
  rewrite Hnotes, Hbpm, Hspeed, Hrate.
  destruct (notes e2) as [|n ns]; [reflexivity|].
  destruct (Parser.last_note (n :: ns)); [|reflexivity].
  destruct (start_sources _ _ _); [|reflexivity].
  destruct (offline_mix _); reflexivity.
Qed.

End Render.

(** ** The speed multiplier during an export *)

Lemma set_playbackSpeed_twice s s' e :
  set_playbackSpeed s (set_playbackSpeed s' e) = set_playbackSpeed s e.
Proof. reflexivity. Qed.

Section Exports.

Variable resolve_sample : float -> jsstring -> AudioBuffer.
Variable offline_mix : OfflineRequest -> option (list (list float)).
Variable encoder : Type.
Variable Mp3Encoder : nat -> float -> float -> encoder.
Variable encodeBuffer :
  encoder -> list Z -> option (list Z) -> encoder * list byte.
Variable flush : encoder -> list byte.

Local Abbreviation render :=
  (renderProjectToBuffer resolve_sample offline_mix).
Local Abbreviation wav := (exportWav resolve_sample offline_mix).
Local Abbreviation mp3 :=
  (exportMp3 resolve_sample offline_mix encoder Mp3Encoder encodeBuffer flush).

(** Both exports are the render of the engine at speed 1, encoded. *)
Lemma exportWav_unfold e :
  snd (wav e)
  = exported (fun b => bufferToWave b (length b))
             (snd (render (set_playbackSpeed 1 e))).
Proof.
  unfold exportWav, exported.
  destruct (render (set_playbackSpeed 1 e)) as [e' [[b|]|]]; reflexivity.
Qed.

Lemma exportMp3_unfold e :
  snd (mp3 e)
  = exported (encodeMp3 encoder Mp3Encoder encodeBuffer flush)
             (snd (render (set_playbackSpeed 1 e))).
Proof.
  unfold exportMp3, exported.
  destruct (render (set_playbackSpeed 1 e)) as [e' [[b|]|]]; reflexivity.
Qed.

(** C5: two engines that hold the same notes, tuning, tempo and sample
    buffers on contexts of the same sample rate, whatever their speed
    multipliers, get the same outcome from [exportWav] and the same from
    [exportMp3]; and that outcome is the encoding of the render of the
    engine at speed 1. *)
Theorem export_ignores_speed (e1 e2 : AudioEngine) :
  claimed_inputs e1 e2 ->
  context_rate e1 = context_rate e2 ->
  snd (wav e1) = snd (wav e2) /\
  snd (mp3 e1) = snd (mp3 e2) /\
  snd (wav e1)
  = exported (fun b => bufferToWave b (length b))
             (snd (render (set_playbackSpeed 1 e1))) /\
  snd (mp3 e1)
  = exported (encodeMp3 encoder Mp3Encoder encodeBuffer flush)
             (snd (render (set_playbackSpeed 1 e1))).
Proof.
  intros Hinputs Hrate.
  assert (Hrender : snd (render (set_playbackSpeed 1 e1))
                    = snd (render (set_playbackSpeed 1 e2))).
  { apply render_same_inputs.
    split; [exact Hinputs | split; [reflexivity | exact Hrate]]. }
  repeat split.
  - rewrite !exportWav_unfold, Hrender. reflexivity.
  - rewrite !exportMp3_unfold, Hrender. reflexivity.
  - apply exportWav_unfold.
  - apply exportMp3_unfold.
Qed.

(** When [exportWav] or [exportMp3] returns, the engine is the one the
    render at speed 1 left, with the speed multiplier written back: the
    multiplier is the one the call started with. *)
Lemma export_restores_speed (e e' : AudioEngine) (blob : option Blob) :
  wav e = (e', Returned blob) \/ mp3 e = (e', Returned blob) ->
  e' = set_playbackSpeed (playbackSpeed e)
         (fst (render (set_playbackSpeed 1 e))) /\
  playbackSpeed e' = playbackSpeed e.
Proof.
  intros [H | H]; [unfold exportWav in H | unfold exportMp3 in H];
    destruct (render (set_playbackSpeed 1 e)) as [e1 [[b|]|]];
    try discriminate H; injection H as <- _; split; reflexivity.
Qed.

End Exports.

(** The engine at speed 2 and the engine at speed 1 export the same. *)
Lemma export_ignores_speed_witness :
  snd (exportWav no_sample silence (strung_engine false 2))
  = snd (exportWav no_sample silence (strung_engine false 1)) /\
  snd (exportMp3 no_sample silence unit mute_new mute_encode mute_flush
         (strung_engine false 2))
  = snd (exportMp3 no_sample silence unit mute_new mute_encode mute_flush
           (strung_engine false 1)) /\
  snd (exportWav no_sample silence (strung_engine false 2))
  = exported (fun b => bufferToWave b (length b))
      (snd (renderProjectToBuffer no_sample silence
              (set_playbackSpeed 1 (strung_engine false 2)))) /\
  snd (exportMp3 no_sample silence unit mute_new mute_encode mute_flush
         (strung_engine false 2))
  = exported (encodeMp3 unit mute_new mute_encode mute_flush)
      (snd (renderProjectToBuffer no_sample silence
              (set_playbackSpeed 1 (strung_engine false 2)))).
Proof.
  exact (export_ignores_speed no_sample silence unit mute_new mute_encode
           mute_flush (strung_engine false 2) (strung_engine false 1)
           (conj eq_refl (conj eq_refl (conj eq_refl eq_refl))) eq_refl).
Defined.

(** The WAV export of the idle engine at speed 2, which renders 3.5 seconds
    of silence, leaves the speed at 2. *)
Example export_restores_speed_example :
  fst (exportWav no_sample silence (idle_engine 2))
  = set_playbackSpeed (playbackSpeed (idle_engine 2))
      (fst (renderProjectToBuffer no_sample silence
              (set_playbackSpeed 1 (idle_engine 2)))) /\
  playbackSpeed (fst (exportWav no_sample silence (idle_engine 2)))
  = playbackSpeed (idle_engine 2).
Proof.
  exact (export_restores_speed no_sample silence unit mute_new mute_encode
           mute_flush (idle_engine 2)
           (fst (exportWav no_sample silence (idle_engine 2)))
           (returned_blob (snd (exportWav no_sample silence (idle_engine 2))))
           (or_introl eq_refl)).
Qed.

(** C8, amended: the outcome of [renderProjectToBuffer] is the same for two
    engines that hold the same notes, tuning, tempo, sample buffers, speed
    multiplier and context sample rate, on every platform; it does not
    depend on the rest of the engine's state. *)
Theorem render_deterministic : render_determined_by render_inputs.
Proof.
  intros resolve mix e1 e2 Hsame. apply render_same_inputs. exact Hsame.
Qed.

(** The engine with its string tuned renders the same idle and playing. *)
Lemma render_deterministic_witness :
  snd (renderProjectToBuffer no_sample silence (strung_engine false 1))
  = snd (renderProjectToBuffer no_sample silence (strung_engine true 1)).
Proof.
  exact (render_deterministic no_sample silence (strung_engine false 1)
           (strung_engine true 1)
           (conj (conj eq_refl (conj eq_refl (conj eq_refl eq_refl)))
                 (conj eq_refl eq_refl))).
Defined.

(** C8 as stated fails: with the same note, tuning, tempo and buffers, the
    render at speed 1 returns a buffer of 154350 samples (3.5 seconds at
    44100 Hz) and the render at speed 2 one of 143325 samples. *)
Lemma render_speed_counterexample :
  rendered_length
    (snd (renderProjectToBuffer no_sample silence (idle_engine 1)))
  = 154350%Z /\
  rendered_length
    (snd (renderProjectToBuffer no_sample silence (idle_engine 2)))
  = 143325%Z /\
  ~ render_determined_by claimed_inputs.
Proof.
  split; [lazy -[Z.to_nat Z.of_nat]; apply Z2Nat.id; lia|].
  split; [lazy -[Z.to_nat Z.of_nat]; apply Z2Nat.id; lia|].
  intros Hclaim.
  pose proof (Hclaim no_sample silence (idle_engine 1) (idle_engine 2)
                (conj eq_refl (conj eq_refl (conj eq_refl eq_refl)))) as H.
  apply (f_equal rendered_length) in H.
  lazy -[Z.to_nat Z.of_nat] in H.
  rewrite !Z2Nat.id in H by lia.
  discriminate H.
Qed.

(** ** Further properties of the engine *)

Section Failure.

Variable resolve_sample : float -> jsstring -> AudioBuffer.
Variable offline_mix : OfflineRequest -> option (list (list float)).
Variable encoder : Type.
Variable Mp3Encoder : nat -> float -> float -> encoder.
Variable encodeBuffer :
  encoder -> list Z -> option (list Z) -> encoder * list byte.
Variable flush : encoder -> list byte.

Local Abbreviation render :=
  (renderProjectToBuffer resolve_sample offline_mix).

(** The render does not write the speed multiplier. *)
Lemma render_keeps_speed e :
  playbackSpeed (fst (render e)) = playbackSpeed e.
Proof.
  unfold renderProjectToBuffer.
  destruct (notes e); [reflexivity|].
  destruct (loadSamples_frame resolve_sample e) as [_ [_ [Hspeed _]]].
  destruct (Parser.last_note _); [|exact Hspeed].
  destruct (start_sources _ _ _); [|exact Hspeed].
  destruct (offline_mix _); exact Hspeed.
Qed.

(** X4: an export whose render raises an exception is left by that
    exception with the speed multiplier at 1: the saved speed is not written
    back. *)
Theorem export_failure_keeps_unit_speed (e : AudioEngine) :
  snd (render (set_playbackSpeed 1 e)) = Thrown ->
  let wav := exportWav resolve_sample offline_mix e in
  let mp3 :=
    exportMp3 resolve_sample offline_mix encoder Mp3Encoder encodeBuffer
      flush e in
  snd wav = Thrown /\ playbackSpeed (fst wav) = 1 /\
  snd mp3 = Thrown /\ playbackSpeed (fst mp3) = 1.
Proof.
  intros Hthrown. unfold exportWav, exportMp3.
  pose proof (render_keeps_speed (set_playbackSpeed 1 e)) as Hspeed.
  destruct (render (set_playbackSpeed 1 e)) as [e1 [buffer|]];
    [discriminate Hthrown|].
  repeat split; exact Hspeed.
Qed.

End Failure.

(** C9, the code at a failing input: an engine whose string 1D is tuned to
    a note named toString. The lookup of that name in [stringBuffers] finds
    the method every object inherits, so [loadSamples] loads nothing for it
    and the render raises a [TypeError] when it assigns the method to
    [source.buffer]. The exception leaves [exportWav] and [exportMp3] after
    the multiplier was set to 1 and before it is written back: on every
    platform, and whatever the multiplier was, the export is left by the
    exception and the multiplier is 1 afterwards. *)
Theorem export_exception_leaves_unit_speed :
  forall (speed : float) resolve_sample offline_mix
         (encoder : Type) Mp3Encoder encodeBuffer flush,
    let e := misnamed_engine speed in
    let wav := exportWav resolve_sample offline_mix e in
    let mp3 :=
      exportMp3 resolve_sample offline_mix encoder Mp3Encoder encodeBuffer
        flush e in
    playbackSpeed e = speed /\
    snd wav = Thrown /\ playbackSpeed (fst wav) = 1 /\
    snd mp3 = Thrown /\ playbackSpeed (fst mp3) = 1.
Proof.
  intros. repeat split; reflexivity.
Qed.

(** A renderer that refuses every request. *)
Lemma export_failure_keeps_unit_speed_witness :
  let wav := exportWav no_sample (fun _ => None) (idle_engine 2) in
  let mp3 :=
    exportMp3 no_sample (fun _ => None) unit mute_new mute_encode mute_flush
      (idle_engine 2) in
  snd wav = Thrown /\ playbackSpeed (fst wav) = 1 /\
  snd mp3 = Thrown /\ playbackSpeed (fst mp3) = 1.
Proof.
  exact (export_failure_keeps_unit_speed no_sample (fun _ => None) unit
           mute_new mute_encode mute_flush (idle_engine 2) eq_refl).
Defined.

(** [setNotes] keeps the events that are neither text nor page break. *)
Lemma setNotes_filters (ns : list Parser.ParsedNote) (e : AudioEngine)
  (n : Parser.ParsedNote) :
  In n (notes (setNotes ns e)) <->
  In n ns /\ Parser.stringId n <> lit "TEXTE"
          /\ Parser.stringId n <> lit "PAGE_BREAK".
Proof.
  unfold setNotes. simpl. rewrite filter_In, andb_true_iff, !negb_true_iff.
  split; intros [Hin [Htext Hpage]]; (split; [exact Hin|]); split.
  - intros Heq. apply ParserProofs.str_eqb_eq in Heq. congruence.
  - intros Heq. apply ParserProofs.str_eqb_eq in Heq. congruence.
  - destruct (str_eqb (Parser.stringId n) (lit "TEXTE")) eqn:Heq;
      [apply ParserProofs.str_eqb_eq in Heq; contradiction | reflexivity].
  - destruct (str_eqb (Parser.stringId n) (lit "PAGE_BREAK")) eqn:Heq;
      [apply ParserProofs.str_eqb_eq in Heq; contradiction | reflexivity].
Qed.

(** *** The size of the WAV file *)

Lemma little_endian_length n v : List.length (little_endian n v) = n.
Proof. unfold little_endian. rewrite length_map. apply length_seq. Qed.

Lemma flat_map_constant_length {A B} (f : A -> list B) (k : nat) (l : list A) :
  (forall a, List.length (f a) = k) ->
  List.length (flat_map f l) = (List.length l * k)%nat.
Proof.
  intros Hf. induction l as [|a l IH]; simpl; [reflexivity|].
  rewrite length_app, Hf, IH. reflexivity.
Qed.

(** X6: the file holds 44 bytes of header and two bytes for each of the
    [len] samples of each channel. *)
Theorem bufferToWave_size (abuffer : AudioBuffer) (len : nat) :
  List.length (blob_bytes (bufferToWave abuffer len))
  = (44 + len * (numberOfChannels abuffer * 2))%nat.
Proof.
  unfold bufferToWave. cbv zeta. cbn [blob_bytes].
  rewrite length_app.
  rewrite (flat_map_constant_length _ (numberOfChannels abuffer * 2)).
  - rewrite length_seq. f_equal.
  - intros pos. unfold numberOfChannels.
    apply (flat_map_constant_length _ 2). intros channel.
    apply little_endian_length.
Qed.

(** One sample on one channel: a file of 46 bytes whose data chunk, of 2
    bytes, is announced as 42 bytes long. *)
Example bufferToWave_data_size_field :
  let file :=
    blob_bytes (bufferToWave
      {| sampleRate := 44100; length := 1; channels := [[0.5]] |} 1) in
  List.length file = 46%nat /\
  firstn 4 (skipn 40 file) = [42; 0; 0; 0]%Z /\
  skipn 44 file = [255; 63]%Z.
Proof.
  repeat split; vm_compute; reflexivity.
Qed.

End AudioProofs.

(* ===================================================================== *)
(** * Proofs: the events of the parser *)
(* ===================================================================== *)

Module EventProofs.

Import JS Parser Claims Events.
Local Open Scope float_scope.

(** The table of [AUTOMATIC_FINGERING] is the default fingering of the
    positions it lists, and every other position gets the thumb. *)
Lemma automatic_fingering_default position :
  match own_property AUTOMATIC_FINGERING position with
  | Some d => d
  | None => lit "P"
  end = default_fingering position.
Proof.
  unfold AUTOMATIC_FINGERING, own_property.
  repeat match goal with
  | |- context [if str_eqb ?k position then _ else _] =>
      let E := fresh "E" in
      destruct (str_eqb k position) eqn:E;
      [apply ParserProofs.str_eqb_eq in E; subst position; reflexivity|]
  end.
  destruct position as [|number [|hand [|c rest]]]; try reflexivity.
  unfold default_fingering.
  destruct ((52 <=? number) && (number <=? 54)
            && ((hand =? 71) || (hand =? 68)))%N eqn:Hrange; [|reflexivity].
  exfalso.
  apply andb_true_iff in Hrange. destruct Hrange as [Hnum Hhand].
  apply andb_true_iff in Hnum. destruct Hnum as [Hlo Hhi].
  apply N.leb_le in Hlo. apply N.leb_le in Hhi.
  assert (Hn : number = 52%N \/ number = 53%N \/ number = 54%N) by lia.
  apply orb_true_iff in Hhand.
  destruct Hhand as [Hh | Hh]; apply N.eqb_eq in Hh; subst hand;
    destruct Hn as [-> | [-> | ->]]; simpl in *; discriminate.
Qed.

Lemma default_fingering_valid position :
  is_fingering (default_fingering position).
Proof.
  unfold default_fingering, is_fingering.
  destruct position as [|number [|hand [|c rest]]]; auto.
  destruct (_ && _ && _)%bool; auto.
Qed.

Lemma chosen_fingering_valid position field3 :
  is_fingering (chosen_fingering position field3).
Proof.
  unfold chosen_fingering. destruct field3 as [p3|];
    [|apply default_fingering_valid].
  destruct (str_eqb p3 (lit "I")) eqn:HI.
  - apply ParserProofs.str_eqb_eq in HI. left. exact HI.
  - destruct (str_eqb p3 (lit "P")) eqn:HP; simpl.
    + apply ParserProofs.str_eqb_eq in HP. right. exact HP.
    + apply default_fingering_valid.
Qed.

Lemma pushed_event {A} (l : list A) (a b : A) : l ++ [a] = l ++ [b] -> a = b.
Proof. intros H. apply app_inv_head in H. injection H as H. exact H. Qed.

Lemma nothing_pushed {A} (l : list A) (a : A) : l <> l ++ [a].
Proof.
  intros H. apply (f_equal (@List.length _)) in H.
  rewrite length_app in H. simpl in H. lia.
Qed.

(** What a line pushes, if anything: the event of its kind, at its index,
    and for a note the position and the fingering of the line. *)
Lemma process_line_pushes up st index line n :
  data (process_line up st index line) = data st ++ [n] ->
  event_shape n /\ lineIndex n = index /\
  (doigt n <> None ->
   exists col1 field2 rest,
     split_ws (trim line) = col1 :: field2 :: rest /\
     stringId n = toUpperCase up field2 /\
     doigt n = Some (chosen_fingering (toUpperCase up field2)
                       (option_map (toUpperCase up) (hd_error rest)))).
Proof.
  unfold process_line.
  destruct (split_ws (trim line)) as [|col1 [|field2 rest]] eqn:Hparts;
    try (intros H; elim (nothing_pushed _ _ H)).
  destruct (detect_delta st col1) as [cursor thisDelta]. cbv zeta.
  destruct (str_eqb (toUpperCase up field2) (lit "TXT")) eqn:Htxt.
  { cbn [data]. intros H. apply pushed_event in H. subst n.
    split; [constructor|]. split; [reflexivity|]. intros Hd. now elim Hd. }
  destruct (str_eqb (toUpperCase up field2) (lit "PAGE")) eqn:Hpage.
  { cbn [data]. intros H. apply pushed_event in H. subst n.
    split; [constructor|]. split; [reflexivity|]. intros Hd. now elim Hd. }
  destruct (str_eqb (toUpperCase up field2) (lit "S")
            || str_eqb (toUpperCase up field2) (lit "SILENCE")
            || str_eqb (toUpperCase up field2) (lit "SEP")) eqn:Hsilence.
  { cbn [data]. intros H. elim (nothing_pushed _ _ H). }
  assert (Hfinger :
    match rest with
    | field3 :: _ =>
        if str_eqb (toUpperCase up field3) (lit "I")
           || str_eqb (toUpperCase up field3) (lit "P")
        then toUpperCase up field3
        else match own_property AUTOMATIC_FINGERING (toUpperCase up field2)
             with Some d => d | None => lit "P" end
    | [] => match own_property AUTOMATIC_FINGERING (toUpperCase up field2)
            with Some d => d | None => lit "P" end
    end
    = chosen_fingering (toUpperCase up field2)
        (option_map (toUpperCase up) (hd_error rest))).
  { rewrite automatic_fingering_default.
    destruct rest as [|field3 rest']; reflexivity. }
  cbn [data]. rewrite Hfinger. intros H. apply pushed_event in H. subst n.
  split.
  - apply shape_note; [|apply chosen_fingering_valid].
    unfold is_position. rewrite Htxt, Hpage. cbn [orb].
    rewrite Hsilence. reflexivity.
  - split; [reflexivity|]. intros _.
    exists col1, field2, rest. repeat split.
Qed.

Lemma forEach_line_shapes up lines : forall index st,
  Forall event_shape (data st) ->
  Forall event_shape (data (forEach_line up lines index st)).
Proof.
  induction lines as [|line more IH]; intros index st Hst; simpl;
    [exact Hst|].
  apply IH.
  destruct (ParserProofs.process_line_cases up st index line)
    as [[_ Hdata] | [_ [n [Hdata _]]]]; rewrite Hdata; [exact Hst|].
  apply Forall_app. split; [exact Hst|].
  constructor; [|constructor].
  apply (process_line_pushes up st index line n Hdata).
Qed.

Lemma parsed_events_shape up text n :
  In n (parseTablature up text) -> event_shape n.
Proof.
  unfold parseTablature. destruct text as [|c text]; [intros []|].
  intros Hin.
  apply (Permutation_in _ (ParserProofs.sort_by_tick_perm _)) in Hin.
  revert n Hin. apply Forall_forall.
  apply forEach_line_shapes. constructor.
Qed.

(** X8: every event the parser returns is a text with a message, a page
    break, or a note whose position is none of TXT, PAGE, S, SILENCE, SEP
    and whose fingering is I or P; its duration is 0 and its identifier is
    the prefix of its kind followed by its line index in decimal. *)
Theorem events_are_well_formed up text :
  Forall event_shape (parseTablature up text).
Proof.
  apply Forall_forall. intros n Hin.
  apply (parsed_events_shape up text). exact Hin.
Qed.

(** ** Fingering *)

Lemma parsed_event_origin up text n :
  In n (parseTablature up text) ->
  exists line st,
    nth_error (lines_of text) (lineIndex n) = Some line /\
    data (process_line up st (lineIndex n) line) = data st ++ [n].
Proof.
  unfold parseTablature. destruct text as [|c text]; [intros []|].
  intros Hin.
  apply (Permutation_in _ (ParserProofs.sort_by_tick_perm _)) in Hin.
  destruct (ParserProofs.forEach_line_provenance up _ _ _ _ Hin)
    as [[] | [k [line [Hk [Hidx [st Hst]]]]]].
  exists line, st. simpl in Hidx. rewrite <- Hidx in Hk.
  split; assumption.
Qed.

(** X3: the fingering of every note the parser returns is decided by its
    line alone: it is the third field in upper case when that is I or P,
    and otherwise the index finger for the positions 4G, 5G, 6G, 4D, 5D,
    6D and the thumb for every other position. *)
Theorem fingering_of_a_note up text n :
  In n (parseTablature up text) ->
  doigt n <> None ->
  exists line col1 field2 rest,
    nth_error (lines_of text) (lineIndex n) = Some line /\
    split_ws (trim line) = col1 :: field2 :: rest /\
    stringId n = toUpperCase up field2 /\
    doigt n = Some (chosen_fingering (toUpperCase up field2)
                      (option_map (toUpperCase up) (hd_error rest))).
Proof.
  intros Hin Hnote.
  destruct (parsed_event_origin up text n Hin) as [line [st [Hline Hpush]]].
  destruct (process_line_pushes up st _ line n Hpush) as [_ [_ Hfinger]].
  destruct (Hfinger Hnote) as [col1 [field2 [rest [Hparts [Hid Hd]]]]].
  exists line, col1, field2, rest. repeat split; assumption.
Qed.

(** The note of "+ 4g p": the third field overrides the index finger. *)
Lemma fingering_of_a_note_witness :
  exists line col1 field2 rest,
    nth_error (lines_of (lit "+ 4g p")) 0 = Some line /\
    split_ws (trim line) = col1 :: field2 :: rest /\
    lit "4G" = toUpperCase no_mapping field2 /\
    Some (lit "P")
    = Some (chosen_fingering (toUpperCase no_mapping field2)
              (option_map (toUpperCase no_mapping) (hd_error rest))).
Proof.
  apply (fingering_of_a_note no_mapping (lit "+ 4g p")
           {| id := lit "note-0"; tick := Num 12; duration := 0;
              stringId := lit "4G"; doigt := Some (lit "P");
              message := None; isPageBreak := false; lineIndex := 0 |}).
  - left. reflexivity.
  - discriminate.
Defined.

(** ** Identifiers *)

Lemma lit_inj (a b : string) : lit a = lit b -> a = b.
Proof.
  unfold lit. intros H.
  rewrite <- (string_of_list_ascii_of_string a),
          <- (string_of_list_ascii_of_string b).
  f_equal. revert H.
  generalize (list_ascii_of_string a), (list_ascii_of_string b).
  induction l as [|x l IH]; intros [|y l'] H; simpl in H;
    try discriminate; [reflexivity|].
  injection H as Hxy Hl. f_equal; [|apply IH; exact Hl].
  rewrite <- (ascii_N_embedding x), <- (ascii_N_embedding y), Hxy.
  reflexivity.
Qed.

Lemma decimal_inj (i j : nat) : decimal i = decimal j -> i = j.
Proof.
  unfold decimal. intros H. apply lit_inj in H.
  assert (Hnil : forall n, Nat.to_uint n <> Decimal.Nil).
  { intros n Hn.
    assert (Hzero : n = 0%nat)
      by (rewrite <- (DecimalNat.Unsigned.of_to n), Hn; reflexivity).
    subst n. discriminate Hn. }
  apply (f_equal NilZero.uint_of_string) in H.
  rewrite !NilZero.usu in H by apply Hnil.
  injection H as Huint. apply DecimalNat.Unsigned.to_uint_inj. exact Huint.
Qed.

Lemma id_determines_line (n m : ParsedNote) :
  event_shape n -> event_shape m -> id n = id m -> lineIndex n = lineIndex m.
Proof.
  intros Hn Hm. destruct Hn, Hm; simpl; intros Hid;
    try discriminate Hid; injection Hid as Hdec; apply decimal_inj;
    exact Hdec.
Qed.

Lemma emitting_indices_from up lines : forall index k,
  In k (emitting_indices up lines index) -> index <= k.
Proof.
  induction lines as [|line more IH]; intros index k Hin; simpl in Hin;
    [destruct Hin|].
  destruct (emitting up line).
  - destruct Hin as [<- | Hin]; [lia|]. apply IH in Hin. lia.
  - apply IH in Hin. lia.
Qed.

Lemma emitting_indices_NoDup up lines : forall index,
  NoDup (emitting_indices up lines index).
Proof.
  induction lines as [|line more IH]; intros index; simpl; [constructor|].
  destruct (emitting up line); [|apply IH].
  constructor; [|apply IH].
  intros Hin. apply emitting_indices_from in Hin. lia.
Qed.

Lemma NoDup_map_finer {A B C} (f : A -> B) (g : A -> C) (l : list A) :
  (forall x y, In x l -> In y l -> g x = g y -> f x = f y) ->
  NoDup (map f l) -> NoDup (map g l).
Proof.
  induction l as [|a l IH]; intros Hfg Hf; simpl; [constructor|].
  inversion Hf as [|? ? Hnotin Hrest]; subst.
  constructor.
  - intros Hin. apply in_map_iff in Hin. destruct Hin as [b [Hgb Hb]].
    apply Hnotin. apply in_map_iff. exists b. split; [|exact Hb].
    apply Hfg; [right; exact Hb | left; reflexivity | exact Hgb].
  - apply IH; [|exact Hrest].
    intros x y Hx Hy. apply Hfg; right; assumption.
Qed.

(** X9: the events returned for a text have pairwise distinct identifiers
    and pairwise distinct line indices. *)
Theorem identifiers_are_unique up text :
  NoDup (map id (parseTablature up text)) /\
  NoDup (map lineIndex (parseTablature up text)).
Proof.
  assert (Hlines : NoDup (map lineIndex (parseTablature up text))).
  { unfold parseTablature. destruct text as [|c text]; [constructor|].
    apply (Permutation_NoDup
             (l := map lineIndex
                     (data (forEach_line up (lines_of (c :: text)) 0
                              initial_state)))).
    - apply Permutation_map, Permutation_sym,
        ParserProofs.sort_by_tick_perm.
    - rewrite ParserProofs.forEach_line_indices. simpl.
      apply emitting_indices_NoDup. }
  split; [|exact Hlines].
  apply (NoDup_map_finer lineIndex id); [|exact Hlines].
  intros x y Hx Hy.
  apply id_determines_line; apply (parsed_events_shape up text); assumption.
Qed.

End EventProofs.

(* ===================================================================== *)
(** * Proofs: samples and exported files *)
(* ===================================================================== *)

Module ExportProofs.

Import JS Audio AudioClaims ExportModel.
Local Open Scope float_scope.

(** ** The sample cache *)

Lemma own_property_app {A} (t1 t2 : list (jsstring * A)) key :
  own_property (t1 ++ t2) key
  = match own_property t1 key with
    | Some v => Some v
    | None => own_property t2 key
    end.
Proof.
  induction t1 as [|[k v] t1 IH]; simpl; [reflexivity|].
  destruct (str_eqb k key); [reflexivity | exact IH].
Qed.

Lemma own_property_resolved {A} (f : jsstring -> A) (l : list jsstring) key :
  In key l -> own_property (map (fun note => (note, f note)) l) key
              = Some (f key).
Proof.
  induction l as [|k l IH]; intros Hin; [destruct Hin|]. simpl.
  destruct (str_eqb k key) eqn:Hk.
  - apply ParserProofs.str_eqb_eq in Hk. subst k. reflexivity.
  - destruct Hin as [-> | Hin];
      [rewrite ParserProofs.str_eqb_refl in Hk; discriminate | apply IH, Hin].
Qed.

Lemma has_entry_app {A} (t1 t2 : list (jsstring * A)) key :
  has_entry t1 key = true -> has_entry (t1 ++ t2) key = true.
Proof.
  unfold has_entry, get_property. rewrite own_property_app.
  destruct (own_property t1 key); [reflexivity|].
  destruct (existsb (str_eqb key) object_prototype_members);
    [|discriminate].
  destruct (own_property t2 key); reflexivity.
Qed.

Lemma unique_complete (l : list jsstring) : forall seen x,
  In x l -> existsb (str_eqb x) seen = true \/ In x (unique seen l).
Proof.
  induction l as [|y l IH]; intros seen x Hin; [destruct Hin|]. simpl.
  destruct Hin as [-> | Hin].
  - destruct (existsb (str_eqb x) seen) eqn:Hseen; [left; reflexivity|].
    right. left. reflexivity.
  - destruct (existsb (str_eqb y) seen) eqn:Hseen.
    + apply IH. exact Hin.
    + destruct (IH (y :: seen) x Hin) as [Hx | Hx]; [|right; right; exact Hx].
      simpl in Hx. apply orb_true_iff in Hx. destruct Hx as [Hxy | Hx].
      * apply ParserProofs.str_eqb_eq in Hxy. subst y.
        right. left. reflexivity.
      * left. exact Hx.
Qed.

Lemma filter_none {A} (p : A -> bool) (l : list A) :
  (forall x, In x l -> p x = false) -> filter p l = [].
Proof.
  induction l as [|a l IH]; intros Hall; [reflexivity|]. simpl.
  rewrite (Hall a (or_introl eq_refl)). apply IH.
  intros x Hx. apply Hall. right. exact Hx.
Qed.

Section Cache.

Variable resolve_sample : float -> jsstring -> AudioBuffer.

Local Abbreviation load := (loadSamples resolve_sample).

(** After a load with a context, [stringBuffers] has an entry for every
    note name the load looked at. *)
Lemma loaded_entry e c note :
  ctx e = Some c ->
  In note (unique [] (map snd (currentTuning e))) ->
  has_entry (stringBuffers (load e)) note = true.
Proof.
  intros Hctx Hin. unfold loadSamples. rewrite Hctx.
  cbn [stringBuffers set_samples].
  destruct (has_entry (stringBuffers e) note) eqn:Hold;
    [apply has_entry_app; exact Hold|].
  unfold has_entry, get_property in Hold.
  destruct (own_property (stringBuffers e) note) eqn:Hown;
    [discriminate Hold|].
  destruct (existsb (str_eqb note) object_prototype_members) eqn:Hproto;
    [discriminate Hold|].
  unfold has_entry, get_property.
  rewrite own_property_app, Hown.
  rewrite (own_property_resolved (resolve_sample (ctx_sampleRate c)));
    [reflexivity|].
  apply filter_In. split; [exact Hin|].
  unfold get_property. rewrite Hown, Hproto. reflexivity.
Qed.

(** X10: loading the samples a second time changes nothing. *)
Theorem loadSamples_idempotent (e : AudioEngine) : load (load e) = load e.
Proof.
  destruct (ctx e) as [c|] eqn:Hctx.
  - assert (Hctx' : ctx (load e) = Some c)
      by (unfold loadSamples; rewrite Hctx; exact Hctx).
    assert (Htuning : currentTuning (load e) = currentTuning e)
      by (unfold loadSamples; rewrite Hctx; reflexivity).
    assert (Hmissing :
      filter (fun note =>
                match get_property (stringBuffers (load e)) note with
                | Undefined => true
                | _ => false
                end)
             (unique [] (map snd (currentTuning (load e)))) = []).
    { rewrite Htuning. apply filter_none. intros note Hin.
      pose proof (loaded_entry e c note Hctx Hin) as Hentry.
      unfold has_entry in Hentry.
      destruct (get_property (stringBuffers (load e)) note);
        [reflexivity | reflexivity | discriminate Hentry]. }
    assert (Hloaded : samplesLoaded (load e) = true)
      by (unfold loadSamples; rewrite Hctx; reflexivity).
    clear Htuning. generalize dependent (load e).
    intros e' Hctx' Hmissing Hloaded.
    unfold loadSamples. rewrite Hctx'. cbv zeta. rewrite Hmissing.
    simpl map. rewrite app_nil_r.
    destruct e'. simpl in Hloaded. subst. reflexivity.
  - unfold loadSamples. rewrite Hctx. rewrite Hctx. reflexivity.
Qed.

Lemma loaded_buffer e c note :
  ctx e = Some c ->
  In note (unique [] (map snd (currentTuning e))) ->
  existsb (str_eqb note) object_prototype_members = false ->
  exists buffer, own_property (stringBuffers (load e)) note = Some buffer.
Proof.
  intros Hctx Hin Hproto.
  pose proof (loaded_entry e c note Hctx Hin) as Hentry.
  unfold has_entry, get_property in Hentry. rewrite Hproto in Hentry.
  destruct (own_property (stringBuffers (load e)) note) as [buffer|];
    [exists buffer; reflexivity | discriminate Hentry].
Qed.

(** X11: what [loadSamples] leaves when the engine has an audio context.
    [samplesLoaded] is set; every note name of the tuning that is not the
    name of a member of [Object.prototype] has a buffer of its own in
    [stringBuffers]; and every buffer that was there is still there: the
    cache only grows. *)
Theorem loadSamples_covers_the_tuning (e : AudioEngine) (c : AudioContext) :
  ctx e = Some c ->
  samplesLoaded (load e) = true /\
  (forall position note,
     In (position, note) (currentTuning e) ->
     existsb (str_eqb note) object_prototype_members = false ->
     exists buffer, own_property (stringBuffers (load e)) note = Some buffer) /\
  (forall note buffer,
     own_property (stringBuffers e) note = Some buffer ->
     own_property (stringBuffers (load e)) note = Some buffer).
Proof.
  intros Hctx.
  split; [unfold loadSamples; rewrite Hctx; reflexivity|].
  split.
  - intros position note Hin Hproto.
    apply (loaded_buffer e c note Hctx); [|exact Hproto].
    destruct (unique_complete (map snd (currentTuning e)) [] note)
      as [Hseen | Hu]; [|discriminate Hseen | exact Hu].
    apply in_map_iff. exists (position, note). split; [reflexivity|exact Hin].
  - intros note buffer Hown. unfold loadSamples. rewrite Hctx.
    cbn [stringBuffers set_samples].
    rewrite own_property_app, Hown. reflexivity.
Qed.

End Cache.

Lemma loadSamples_covers_the_tuning_witness :
  samplesLoaded (loadSamples no_sample tuned_engine) = true /\
  (forall position note,
     In (position, note) (currentTuning tuned_engine) ->
     existsb (str_eqb note) object_prototype_members = false ->
     exists buffer,
       own_property (stringBuffers (loadSamples no_sample tuned_engine)) note
       = Some buffer) /\
  (forall note buffer,
     own_property (stringBuffers tuned_engine) note = Some buffer ->
     own_property (stringBuffers (loadSamples no_sample tuned_engine)) note
     = Some buffer).
Proof.
  exact (loadSamples_covers_the_tuning no_sample tuned_engine
           {| ctx_sampleRate := 44100; currentTime := 0 |} eq_refl).
Defined.

(** ** What an export returns and leaves *)

Section Outcome.

Variable resolve_sample : float -> jsstring -> AudioBuffer.
Variable offline_mix : OfflineRequest -> option (list (list float)).
Variable encoder : Type.
Variable Mp3Encoder : nat -> float -> float -> encoder.
Variable encodeBuffer :
  encoder -> list Z -> option (list Z) -> encoder * list byte.
Variable flush : encoder -> list byte.

Local Abbreviation load := (loadSamples resolve_sample).
Local Abbreviation render :=
  (renderProjectToBuffer resolve_sample offline_mix).
Local Abbreviation wav := (exportWav resolve_sample offline_mix).
Local Abbreviation mp3 :=
  (exportMp3 resolve_sample offline_mix encoder Mp3Encoder encodeBuffer flush).

Lemma set_playbackSpeed_same e : set_playbackSpeed (playbackSpeed e) e = e.
Proof. destruct e. reflexivity. Qed.

Lemma load_at_unit_speed e :
  set_playbackSpeed (playbackSpeed e) (load (set_playbackSpeed 1 e)) = load e.
Proof.
  unfold loadSamples. destruct e as [[c|] ? ? ? ? ? ? ? ?]; reflexivity.
Qed.

Lemma last_note_some n ns : Parser.last_note (n :: ns) <> None.
Proof.
  revert n. induction ns as [|m ns IH]; intros n; simpl; [discriminate|].
  apply IH.
Qed.

(** What a render that returns leaves and gives. *)
Lemma render_returned e e' buffer :
  render e = (e', Returned buffer) ->
  (buffer = None <-> notes e = []) /\
  e' = match notes e with [] => e | _ :: _ => load e end.
Proof.
  unfold renderProjectToBuffer. destruct (notes e) as [|n ns] eqn:Hnotes.
  - intros H. injection H as <- <-. split; [tauto | reflexivity].
  - cbv zeta.
    destruct (AudioProofs.loadSamples_frame resolve_sample e) as [Hload _].
    rewrite Hload, Hnotes.
    destruct (Parser.last_note (n :: ns)) as [lastNote|] eqn:Hlast;
      [|destruct (last_note_some n ns Hlast)].
    destruct (start_sources _ _ _); [|discriminate].
    destruct (offline_mix _); [|discriminate].
    intros H. injection H as <- <-.
    split; [split; discriminate | reflexivity].
Qed.

Lemma export_returned e e' blob :
  wav e = (e', Returned blob) \/ mp3 e = (e', Returned blob) ->
  exists e1 buffer,
    render (set_playbackSpeed 1 e) = (e1, Returned buffer) /\
    e' = set_playbackSpeed (playbackSpeed e) e1 /\
    (blob = None <-> buffer = None).
Proof.
  intros [H | H]; [unfold exportWav in H | unfold exportMp3 in H];
    destruct (render (set_playbackSpeed 1 e)) as [e1 [buffer|]];
    try discriminate H; exists e1, buffer;
    destruct buffer as [buffer|]; injection H as <- <-;
    repeat split; try reflexivity; discriminate.
Qed.

(** X12: an export that returns has changed nothing but the sample cache:
    the engine is the one it started from when there is no note, and that
    engine with its samples loaded otherwise; and it returns [null] exactly
    when there is no note. *)
Theorem returning_export_frame (e e' : AudioEngine) (blob : option Blob) :
  wav e = (e', Returned blob) \/ mp3 e = (e', Returned blob) ->
  (blob = None <-> notes e = []) /\
  e' = match notes e with [] => e | _ :: _ => load e end.
Proof.
  intros H. apply export_returned in H.
  destruct H as (e1 & buffer & Hrender & -> & Hblob).
  apply render_returned in Hrender. destruct Hrender as [Hnull ->].
  change (notes (set_playbackSpeed 1 e)) with (notes e) in *.
  split; [rewrite Hblob; exact Hnull|].
  destruct (notes e); [|apply load_at_unit_speed].
  rewrite AudioProofs.set_playbackSpeed_twice. apply set_playbackSpeed_same.
Qed.

(** Without notes, both exports return [null] and leave the engine as it
    was: nothing is loaded, rendered or encoded. *)
Lemma export_without_notes (e : AudioEngine) :
  notes e = [] ->
  wav e = (e, Returned None) /\ mp3 e = (e, Returned None).
Proof.
  intros Hnotes. unfold exportWav, exportMp3, renderProjectToBuffer.
  change (notes (set_playbackSpeed 1 e)) with (notes e). rewrite Hnotes.
  rewrite AudioProofs.set_playbackSpeed_twice, set_playbackSpeed_same.
  split; reflexivity.
Qed.

End Outcome.

(** The WAV export of the engine with its string tuned, on a platform that
    renders silence. *)
Lemma returning_export_frame_witness :
  (returned_blob (snd (exportWav no_sample silence (strung_engine false 2)))
   = None
   <-> notes (strung_engine false 2) = []) /\
  fst (exportWav no_sample silence (strung_engine false 2))
  = match notes (strung_engine false 2) with
    | [] => strung_engine false 2
    | _ :: _ => loadSamples no_sample (strung_engine false 2)
    end.
Proof.
  exact (returning_export_frame no_sample silence unit mute_new mute_encode
           mute_flush (strung_engine false 2)
           (fst (exportWav no_sample silence (strung_engine false 2)))
           (returned_blob
              (snd (exportWav no_sample silence (strung_engine false 2))))
           (or_introl eq_refl)).
Defined.

(** ** The layout of the WAV file *)

Lemma flat_map_block {A B} (f : A -> list B) (k : nat) (d : A) :
  (forall a, List.length (f a) = k) ->
  forall (l : list A) (i : nat),
    (i < List.length l)%nat ->
    firstn k (skipn (i * k) (flat_map f l)) = f (nth i l d).
Proof.
  intros Hf. induction l as [|a l IH]; intros i Hi; [inversion Hi|].
  destruct i as [|i]; cbn [flat_map nth].
  - change (0 * k)%nat with 0%nat. cbn [skipn].
    rewrite firstn_app, Hf, Nat.sub_diag, <- (Hf a), firstn_all.
    cbn [firstn]. apply app_nil_r.
  - replace (S i * k)%nat with (List.length (f a) + i * k)%nat
      by (rewrite Hf; simpl; reflexivity).
    rewrite skipn_app, Nat.add_comm, Nat.add_sub.
    rewrite (skipn_all2 (f a)) by lia.
    cbn [app]. apply IH. simpl in Hi. lia.
Qed.

Lemma window_in_block {A} (l : list A) (a b n : nat) :
  (b + a <= n)%nat ->
  firstn a (skipn b (firstn n l)) = firstn a (skipn b l).
Proof.
  intros Hle. rewrite !firstn_skipn_comm, firstn_firstn.
  rewrite Nat.min_l by lia. reflexivity.
Qed.

Lemma header_length (abuffer : AudioBuffer) (len : nat) :
  exists header samples,
    blob_bytes (bufferToWave abuffer len) = header ++ samples /\
    List.length header = 44%nat /\
    samples
    = flat_map
        (fun pos =>
           flat_map
             (fun channel =>
                setInt16 (of_Z (wave_sample (sample_at channel pos))))
             (channels abuffer))
        (seq 0 len).
Proof.
  unfold bufferToWave. cbv zeta. cbn [blob_bytes].
  eexists. eexists. split; [reflexivity|]. split; [|reflexivity].
  rewrite !length_app. unfold setUint32, setUint16.
  rewrite !AudioProofs.little_endian_length. reflexivity.
Qed.

(** X13: in the WAV file the samples are interleaved frame by frame after
    the 44 bytes of the header: the two bytes at offset
    [44 + 2 * (pos * numberOfChannels + channel)] are the 16-bit value of
    sample [pos] of that channel, least significant byte first. *)
Theorem wave_sample_position (abuffer : AudioBuffer) (len pos channel : nat) :
  (pos < len)%nat ->
  (channel < numberOfChannels abuffer)%nat ->
  field (44 + 2 * (pos * numberOfChannels abuffer + channel)) 2
        (blob_bytes (bufferToWave abuffer len))
  = setInt16
      (of_Z (wave_sample (sample_at (getChannelData abuffer channel) pos))).
Proof.
  intros Hpos Hchannel.
  destruct (header_length abuffer len) as (header & samples & -> & Hh & ->).
  unfold field.
  replace (44 + 2 * (pos * numberOfChannels abuffer + channel))%nat
    with (List.length header
          + (channel * 2 + pos * (numberOfChannels abuffer * 2)))%nat
    by lia.
  rewrite skipn_app, Nat.add_comm, Nat.add_sub.
  rewrite (skipn_all2 header) by lia. cbn [app].
  rewrite <- skipn_skipn.
  rewrite <- (window_in_block _ 2 (channel * 2) (numberOfChannels abuffer * 2))
    by lia.
  rewrite (flat_map_block _ (numberOfChannels abuffer * 2) 0%nat).
  - rewrite seq_nth by exact Hpos. cbn [Nat.add].
    unfold getChannelData.
    apply (flat_map_block
             (fun c => setInt16 (of_Z (wave_sample (sample_at c pos)))) 2 []).
    + intros c. apply AudioProofs.little_endian_length.
    + exact Hchannel.
  - intros p. apply (AudioProofs.flat_map_constant_length _ 2).
    intros c. apply AudioProofs.little_endian_length.
  - rewrite length_seq. exact Hpos.
Qed.

Lemma wave_sample_position_witness :
  field (44 + 2 * (1 * numberOfChannels stereo_buffer + 1)) 2
        (blob_bytes (bufferToWave stereo_buffer 3))
  = setInt16
      (of_Z (wave_sample (sample_at (getChannelData stereo_buffer 1) 1))).
Proof.
  apply (wave_sample_position stereo_buffer 3 1 1); vm_compute; lia.
Defined.

(** ** The blocks handed to the MP3 encoder *)

Lemma chunks_cover {A} (size : nat) (l : list A) : forall (n : nat),
  (List.length l <= n * size)%nat ->
  List.concat (map (fun k => firstn size (skipn (k * size) l)) (seq 0 n)) = l.
Proof.
  intros n. revert l. induction n as [|n IH]; intros l Hlen.
  - destruct l; [reflexivity | simpl in Hlen; lia].
  - cbn [seq map List.concat]. rewrite <- seq_shift, map_map.
    change (0 * size)%nat with 0%nat. cbn [skipn].
    transitivity (firstn size l ++ skipn size l); [|apply firstn_skipn].
    f_equal. rewrite <- (IH (skipn size l)).
    + f_equal. apply map_ext. intros k.
      rewrite skipn_skipn. do 2 f_equal. simpl. lia.
    + rewrite length_skipn. simpl in Hlen. lia.
Qed.

Lemma echo_blocks (pick : list Z -> option (list Z) -> list byte)
  (channelCount : nat) (samplesLeft samplesRight : list Z)
  (offsets : list nat) :
  List.concat
    (snd (encode_blocks unit (fun _ l r => (tt, pick l r)) channelCount
            samplesLeft samplesRight offsets tt))
  = List.concat
      (map (fun i =>
              pick (firstn 1152 (skipn i samplesLeft))
                   (if Nat.eqb channelCount 2
                    then Some (firstn 1152 (skipn i samplesRight))
                    else None))
           offsets).
Proof.
  induction offsets as [|i more IH]; [reflexivity|].
  cbn [encode_blocks map List.concat]. rewrite <- IH.
  destruct (Nat.eqb channelCount 2); cbv beta iota zeta;
    destruct (encode_blocks unit _ channelCount samplesLeft samplesRight
                more tt) as [enc mp3Data];
    cbn [snd];
    match goal with
    | |- context [pick ?l ?r] => destruct (pick l r); reflexivity
    end.
Qed.

Lemma samples_of_channel (f : float -> Z) (l : list float) : forall n,
  (List.length l <= n)%nat ->
  map (fun i => if Nat.ltb i n then f (sample_at l i) else 0%Z)
      (seq 0 (List.length l))
  = map f l.
Proof.
  induction l as [|x l IH]; intros n Hn; [reflexivity|].
  destruct n as [|n]; [simpl in Hn; lia|].
  cbn [List.length seq map]. rewrite <- seq_shift, map_map.
  f_equal. rewrite <- (IH n) by (simpl in Hn; lia).
  apply map_ext. intros i. reflexivity.
Qed.

Lemma blocks_enough (n : nat) : (n <= (n + 1151) / 1152 * 1152)%nat.
Proof.
  pose proof (Nat.div_mod_eq (n + 1151) 1152) as Hdiv.
  pose proof (Nat.mod_upper_bound (n + 1151) 1152) as Hmod.
  lia.
Qed.

(** X14: [exportMp3] hands the encoder every sample once and in order. With
    an encoder that returns the block it is given, the file is the sequence
    of the converted samples of the left channel; and, for a buffer of two
    channels of the same length, with an encoder that returns the second
    block, it is that of the right channel. *)
Theorem mp3_blocks_cover_the_samples (buffer : AudioBuffer) :
  numberOfChannels buffer = 2%nat ->
  List.length (getChannelData buffer 1) = List.length (getChannelData buffer 0) ->
  blob_bytes (encodeMp3 unit echo_new echo_left echo_flush buffer)
  = map mp3_sample (getChannelData buffer 0) /\
  blob_bytes (encodeMp3 unit echo_new echo_right echo_flush buffer)
  = map mp3_sample (getChannelData buffer 1).
Proof.
  intros Hchannels Hlength. unfold encodeMp3. cbv zeta. rewrite Hchannels.
  change (Nat.ltb 1 2) with true. cbv iota.
  rewrite (samples_of_channel mp3_sample (getChannelData buffer 1)) by lia.
  rewrite length_map.
  set (samplesLeft := map mp3_sample (getChannelData buffer 0)).
  set (samplesRight := map mp3_sample (getChannelData buffer 1)).
  set (offsets := map (fun k => (k * 1152)%nat) _).
  assert (Hcover : forall l : list Z,
            List.length l = List.length (getChannelData buffer 0) ->
            List.concat (map (fun i => firstn 1152 (skipn i l)) offsets) = l).
  { intros l Hl. unfold offsets. rewrite map_map.
    apply (chunks_cover 1152 l). rewrite Hl. apply blocks_enough. }
  split.
  - pose proof (echo_blocks (fun l _ => l) 2 samplesLeft samplesRight offsets
                : List.concat
                    (snd (encode_blocks unit echo_left 2 samplesLeft
                            samplesRight offsets
                            (echo_new 2 (sampleRate buffer) 320)))
                  = List.concat
                      (map (fun i => firstn 1152 (skipn i samplesLeft))
                           offsets)) as Hecho.
    destruct (encode_blocks unit echo_left 2 samplesLeft samplesRight offsets
                (echo_new 2 (sampleRate buffer) 320)) as [enc mp3Data].
    cbn [blob_bytes snd echo_flush] in Hecho |- *.
    rewrite app_nil_r, Hecho. apply Hcover. apply length_map.
  - pose proof (echo_blocks
                  (fun _ r => match r with Some block => block | None => [] end)
                  2 samplesLeft samplesRight offsets
                : List.concat
                    (snd (encode_blocks unit echo_right 2 samplesLeft
                            samplesRight offsets
                            (echo_new 2 (sampleRate buffer) 320)))
                  = List.concat
                      (map (fun i => firstn 1152 (skipn i samplesRight))
                           offsets)) as Hecho.
    destruct (encode_blocks unit echo_right 2 samplesLeft samplesRight offsets
                (echo_new 2 (sampleRate buffer) 320)) as [enc mp3Data].
    cbn [blob_bytes snd echo_flush] in Hecho |- *.
    rewrite app_nil_r, Hecho. apply Hcover.
    unfold samplesRight. rewrite length_map. exact Hlength.
Qed.

Lemma mp3_blocks_cover_the_samples_witness :
  blob_bytes (encodeMp3 unit echo_new echo_left echo_flush stereo_buffer)
  = map mp3_sample (getChannelData stereo_buffer 0) /\
  blob_bytes (encodeMp3 unit echo_new echo_right echo_flush stereo_buffer)
  = map mp3_sample (getChannelData stereo_buffer 1).
Proof.
  apply (mp3_blocks_cover_the_samples stereo_buffer); reflexivity.
Defined.

(** ** The sizes declared in the WAV header *)

Lemma all_from_sound (p : Z -> bool) : forall k lo,
  all_from k lo p = true ->
  forall z, (lo <= z < lo + 2 ^ Z.of_nat k)%Z -> p z = true.
Proof.
  induction k as [|k IH]; intros lo Hall z Hz.
  - simpl in Hall, Hz. replace z with lo by lia. exact Hall.
  - cbn [all_from] in Hall. apply andb_true_iff in Hall.
    destruct Hall as [Hlow Hhigh].
    rewrite Nat2Z.inj_succ, Z.pow_succ_r in Hz by lia.
    destruct (Z_lt_ge_dec z (lo + 2 ^ Z.of_nat k)) as [Hlt | Hge].
    + apply (IH lo Hlow). lia.
    + apply (IH _ Hhigh). lia.
Qed.

Lemma field_skip (prefix l : list byte) (k offset size : nat) :
  List.length prefix = k ->
  field (k + offset) size (prefix ++ l) = field offset size l.
Proof.
  intros <-. unfold field. rewrite skipn_app, Nat.add_comm, Nat.add_sub.
  rewrite (skipn_all2 prefix) by lia. reflexivity.
Qed.

Lemma field_here (x l : list byte) (size : nat) :
  List.length x = size -> field 0 size (x ++ l) = x.
Proof.
  intros <-. unfold field. cbn [skipn].
  rewrite firstn_app, Nat.sub_diag, firstn_all.
  cbn [firstn]. apply app_nil_r.
Qed.

Ltac skip_field k offset :=
  rewrite (field_skip _ _ k offset 4)
    by apply AudioProofs.little_endian_length.

Lemma header_size_fields (abuffer : AudioBuffer) (len : nat) :
  let numOfChan := of_Z (Z.of_nat (numberOfChannels abuffer)) in
  let length := of_Z (Z.of_nat len) * numOfChan * 2 + 44 in
  let file := blob_bytes (bufferToWave abuffer len) in
  field 4 4 file = setUint32 (length - 8) /\
  field 40 4 file = setUint32 (length - 0 - 4).
Proof.
  unfold bufferToWave. cbv zeta. cbn [blob_bytes].
  rewrite <- !app_assoc. split.
  - skip_field 4%nat 0%nat.
    apply field_here, AudioProofs.little_endian_length.
  - skip_field 4%nat 36%nat. skip_field 4%nat 32%nat.
    skip_field 4%nat 28%nat. skip_field 4%nat 24%nat.
    skip_field 4%nat 20%nat. skip_field 2%nat 18%nat.
    skip_field 2%nat 16%nat. skip_field 4%nat 12%nat.
    skip_field 4%nat 8%nat. skip_field 2%nat 6%nat.
    skip_field 2%nat 4%nat. skip_field 4%nat 0%nat.
    apply field_here, AudioProofs.little_endian_length.
Qed.

Lemma wave_file_length (abuffer : AudioBuffer) (len : nat) :
  List.length (blob_bytes (bufferToWave abuffer len))
  = (44 + len * (numberOfChannels abuffer * 2))%nat.
Proof.
  destruct (header_length abuffer len) as (header & samples & -> & Hh & ->).
  rewrite length_app, Hh. f_equal.
  rewrite (AudioProofs.flat_map_constant_length
             _ (numberOfChannels abuffer * 2)).
  - rewrite length_seq. reflexivity.
  - intros pos. apply (AudioProofs.flat_map_constant_length _ 2).
    intros channel. apply AudioProofs.little_endian_length.
Qed.

Lemma sizes_checked_below : all_from 12 0%Z sizes_checked = true.
Proof. vm_compute. reflexivity. Qed.

(** X7: the two sizes of the WAV header, for a buffer of at most two
    channels and fewer than 4096 frames. The size of the RIFF header is the
    length of the file minus 8. The size of the data chunk is 40 more than
    the number of bytes that follow the header: [pos] is still 0 when
    line 32 writes [length - pos - 4]. *)
Theorem wave_header_sizes (abuffer : AudioBuffer) (len : nat) :
  (numberOfChannels abuffer <= 2)%nat ->
  (Z.of_nat len < 4096)%Z ->
  let file := blob_bytes (bufferToWave abuffer len) in
  from_little_endian (field 4 4 file) = (Z.of_nat (List.length file) - 8)%Z /\
  from_little_endian (field 40 4 file)
  = (Z.of_nat (List.length (skipn 44 file)) + 40)%Z.
Proof.
  intros Hchannels Hlen file.
  destruct (header_size_fields abuffer len) as [Hriff Hdata].
  fold file in Hriff, Hdata. rewrite Hriff, Hdata.
  unfold file. rewrite length_skipn, wave_file_length.
  pose proof (all_from_sound sizes_checked 12 0%Z sizes_checked_below
                (Z.of_nat len)) as Hchecked.
  unfold sizes_checked in Hchecked. cbn [forallb] in Hchecked.
  assert (Hrange : (0 <= Z.of_nat len < 0 + 2 ^ Z.of_nat 12)%Z)
    by (change (2 ^ Z.of_nat 12)%Z with 4096%Z; lia).
  specialize (Hchecked Hrange).
  rewrite !andb_true_iff in Hchecked.
  destruct Hchecked as (H0 & H1 & H2 & _).
  destruct (numberOfChannels abuffer) as [|[|[|n]]]; [| | |lia].
  - unfold declared_sizes in H0. cbv zeta in H0.
    apply andb_true_iff in H0. destruct H0 as [Hr Hd].
    apply Z.eqb_eq in Hr, Hd. change (Z.of_nat 0) with 0%Z.
    rewrite Hr, Hd. split; lia.
  - unfold declared_sizes in H1. cbv zeta in H1.
    apply andb_true_iff in H1. destruct H1 as [Hr Hd].
    apply Z.eqb_eq in Hr, Hd. change (Z.of_nat 1) with 1%Z.
    rewrite Hr, Hd. split; lia.
  - unfold declared_sizes in H2. cbv zeta in H2.
    apply andb_true_iff in H2. destruct H2 as [Hr Hd].
    apply Z.eqb_eq in Hr, Hd. change (Z.of_nat 2) with 2%Z.
    rewrite Hr, Hd. split; lia.
Qed.

Lemma wave_header_sizes_witness :
  let file := blob_bytes (bufferToWave stereo_buffer 3) in
  from_little_endian (field 4 4 file) = (Z.of_nat (List.length file) - 8)%Z /\
  from_little_endian (field 40 4 file)
  = (Z.of_nat (List.length (skipn 44 file)) + 40)%Z.
Proof.
  apply (wave_header_sizes stereo_buffer 3); vm_compute; [lia | reflexivity].
Defined.

(** ** From the parser to the engine *)

(** X5: of a parsed tablature, [setNotes] keeps notes only: every event it
    keeps was returned by the parser, carries one of the two fingerings and
    no message, and is no page break. *)
Theorem engine_receives_only_notes up (text : jsstring) (e : AudioEngine)
  (n : Parser.ParsedNote) :
  In n (notes (setNotes (Parser.parseTablature up text) e)) ->
  In n (Parser.parseTablature up text) /\
  (exists d, Parser.doigt n = Some d /\ Events.is_fingering d) /\
  Parser.message n = None /\
  Parser.isPageBreak n = false.
Proof.
  intros Hin. apply AudioProofs.setNotes_filters in Hin.
  destruct Hin as (Hin & Htext & Hpage). split; [exact Hin|].
  destruct (EventProofs.parsed_events_shape up text n Hin)
    as [index t m | index t | index t position d Hposition Hd];
    cbn [Parser.stringId] in Htext, Hpage;
    [destruct (Htext eq_refl) | destruct (Hpage eq_refl) |].
  cbn. split; [exists d; split; [reflexivity | exact Hd]|].
  split; reflexivity.
Qed.

(** The note of the line "+ 1D". *)
Lemma engine_receives_only_notes_witness :
  In one_note (Parser.parseTablature Claims.no_mapping (lit "+ 1D")) /\
  (exists d, Parser.doigt one_note = Some d /\ Events.is_fingering d) /\
  Parser.message one_note = None /\
  Parser.isPageBreak one_note = false.
Proof.
  apply (engine_receives_only_notes Claims.no_mapping (lit "+ 1D")
           (idle_engine 1) one_note).
  left. reflexivity.
Defined.

End ExportProofs.

(* ===================================================================== *)
(** * Proofs: live playback *)
(* ===================================================================== *)

Module PlaybackProofs.

Import JS Audio AudioClaims Playback.
Local Open Scope float_scope.

(** ** Traces *)

Lemma started_app (a b : list effect) : started (a ++ b) = started a ++ started b.
Proof.
  induction a as [|x a IH]; [reflexivity|].
  destruct x; simpl; rewrite IH; reflexivity.
Qed.

Lemma subsequence_app {A} (s1 l1 s2 l2 : list A) :
  subsequence s1 l1 -> subsequence s2 l2 -> subsequence (s1 ++ s2) (l1 ++ l2).
Proof.
  intros H1 H2. induction H1; simpl; [exact H2 | |];
    constructor; assumption.
Qed.

Lemma subsequence_none {A} (l : list A) : subsequence [] l.
Proof. induction l; constructor; assumption. Qed.

Lemma firstn_split {A} (a b : nat) (l : list A) :
  firstn a l ++ firstn b (skipn a l) = firstn (a + b) l.
Proof.
  revert l. induction a as [|a IH]; intros l; [reflexivity|].
  destruct l as [|x l]; simpl; [destruct b; reflexivity|].
  rewrite IH. reflexivity.
Qed.

(** ** Steps that start nothing *)

Lemma silent_refl p : silent p p.
Proof.
  repeat split. exists []. split; [symmetry; apply app_nil_r | reflexivity].
Qed.

Lemma silent_trans p q r : silent p q -> silent q r -> silent p r.
Proof.
  intros (Hn1 & Hi1 & new1 & Ht1 & Hs1) (Hn2 & Hi2 & new2 & Ht2 & Hs2).
  repeat split; [congruence | congruence|].
  exists (new1 ++ new2). split.
  - rewrite Ht2, Ht1, app_assoc. reflexivity.
  - rewrite started_app, Hs1, Hs2. reflexivity.
Qed.

Lemma silent_emit x p : started [x] = [] -> silent p (emit x p).
Proof.
  intros Hx. repeat split. exists [x]. split; [reflexivity | exact Hx].
Qed.

Lemma silent_at_time t p : silent p (at_time t p).
Proof.
  repeat split. exists []. split; [symmetry; apply app_nil_r | reflexivity].
Qed.

Ltac quiet_trace :=
  cbn; rewrite <- ?app_assoc;
  first [ exists []; split; [symmetry; apply app_nil_r | reflexivity]
        | eexists; split; [reflexivity | reflexivity] ].

Lemma silent_stop p : silent p (stop p).
Proof.
  destruct p as [e n [s|] [a|] ? ? ? ? ? ? [|] ? ? [? ? ? calls]];
    unfold silent; cbn;
    (split; [reflexivity|]); (split; [reflexivity|]); quiet_trace.
Qed.

Lemma silent_ended p : silent p (ended p).
Proof.
  unfold ended. cbv zeta.
  destruct (onEndedCallback (stop p));
    [|apply silent_stop].
  apply (silent_trans _ (stop p)); [apply silent_stop|].
  apply silent_emit. reflexivity.
Qed.

Lemma silent_rearmed p : silent p (rearmed p).
Proof.
  unfold rearmed, setTimeout, silent. cbn.
  repeat split. quiet_trace.
Qed.

Lemma silent_updateTickUI p : silent p (updateTickUI p).
Proof.
  unfold updateTickUI. cbv zeta.
  destruct (isPlaying (engine p)); [|apply silent_refl].
  destruct (ctx (engine p)); [|apply silent_refl].
  unfold requestAnimationFrame, silent.
  destruct (onTickCallback p); cbn; repeat split; quiet_trace.
Qed.

Lemma silent_advanced p q : silent p q -> advanced p q.
Proof.
  intros (Hnotes & Hindex & new & Htrace & Hstarted).
  unfold advanced. cbv zeta. rewrite Hindex, Nat.sub_diag.
  split; [exact Hnotes|]. split; [lia|]. split; [lia|].
  exists new. split; [exact Htrace|]. rewrite Hstarted. constructor.
Qed.

Lemma advanced_trans p q r : advanced p q -> advanced q r -> advanced p r.
Proof.
  intros (Hn1 & Hle1 & Hb1 & new1 & Ht1 & Hs1)
         (Hn2 & Hle2 & Hb2 & new2 & Ht2 & Hs2).
  rewrite Hn1 in *.
  unfold advanced. cbv zeta.
  split; [congruence|]. split; [lia|]. split; [lia|].
  exists (new1 ++ new2). split.
  - rewrite Ht2, Ht1, app_assoc. reflexivity.
  - rewrite started_app.
    replace (nextNoteIndex r - nextNoteIndex p)%nat
      with ((nextNoteIndex q - nextNoteIndex p)
            + (nextNoteIndex r - nextNoteIndex q))%nat by lia.
    rewrite <- firstn_split, skipn_skipn.
    replace (nextNoteIndex q - nextNoteIndex p + nextNoteIndex p)%nat
      with (nextNoteIndex q) by lia.
    apply subsequence_app; assumption.
Qed.

Section Scheduling.

Variable random : nat -> float.
Variable start_accepts : float -> bool.
Variable shaker_accepts : float -> bool.

Local Abbreviation playNote := (playNote random start_accepts).
Local Abbreviation beats := (beats shaker_accepts).
Local Abbreviation due_notes := (due_notes random start_accepts).
Local Abbreviation schedule := (schedule random start_accepts shaker_accepts).
Local Abbreviation callbacks :=
  (callbacks random start_accepts shaker_accepts).

Lemma silent_end_or_rearm c secondsPerTick p :
  silent p (end_or_rearm c secondsPerTick p).
Proof.
  unfold end_or_rearm. cbv zeta.
  destruct (Nat.leb _ _); [|apply silent_rearmed].
  destruct (Parser.last_note _); [|apply silent_ended].
  destruct (_ <? _); [apply silent_ended | apply silent_rearmed].
Qed.

Lemma silent_beats c secondsPerBeat beatsPerMeasure : forall fuel p r,
  beats fuel c secondsPerBeat beatsPerMeasure p = Some r ->
  silent p (left_by r).
Proof.
  induction fuel as [|fuel IH]; intros p r; cbn [Playback.beats].
  - destruct (_ <? _); [discriminate|].
    intros H. injection H as <-. apply silent_refl.
  - destruct (_ <? _);
      [|intros H; injection H as <-; apply silent_refl].
    destruct (_ <=? _).
    + destruct (shakerBuffer p) as [buffer|].
      * unfold playShaker. destruct (shaker_accepts _).
        -- intros H. apply IH in H.
           refine (silent_trans _ _ _ _ H).
           apply (silent_trans _ (emit (ShakerStarted (nextBeatTime p)
                    (remainder (remainder (currentBeatIndex p) beatsPerMeasure
                                + beatsPerMeasure) beatsPerMeasure =? 0)) p)).
           ++ apply silent_emit. reflexivity.
           ++ repeat split. quiet_trace.
        -- intros H. injection H as <-. apply silent_refl.
      * intros H. apply IH in H. refine (silent_trans _ _ _ _ H).
        repeat split. quiet_trace.
    + intros H. apply IH in H. refine (silent_trans _ _ _ _ H).
      repeat split. quiet_trace.
Qed.

(** [playNote] starts the source of its note, or nothing. *)
Lemma playNote_starts c note time p :
  let r := playNote c note time p in
  notes (engine (left_by r)) = notes (engine p) /\
  nextNoteIndex (left_by r) = nextNoteIndex p /\
  exists new,
    trace (platform (left_by r)) = trace (platform p) ++ new /\
    match r with
    | Finished _ => started new = [] \/ started new = [note]
    | Raised _ => started new = []
    end.
Proof.
  unfold Playback.playNote.
  destruct (_ <? _);
    [cbn; repeat split; exists []; split;
       [symmetry; apply app_nil_r | left; reflexivity]|].
  destruct (get_property (currentTuning _) _) as [[|u noteName]| |];
    try (cbn; repeat split; exists []; split;
           [symmetry; apply app_nil_r | left; reflexivity]).
  destruct (get_property (stringBuffers _) _) as [buffer| |];
    try (cbn; repeat split; exists []; split;
           [symmetry; apply app_nil_r | first [left; reflexivity | reflexivity]]).
  destruct (start_accepts time); cbn; repeat split.
  - eexists. split; [reflexivity | right; reflexivity].
  - exists []. split; [symmetry; apply app_nil_r | reflexivity].
Qed.

Lemma skipn_next {A} (l : list A) : forall n x r,
  skipn n l = x :: r -> skipn (S n) l = r /\ (n < List.length l)%nat.
Proof.
  induction l as [|y l IH]; intros n x r H.
  - destruct n; discriminate H.
  - destruct n as [|n]; simpl in H.
    + injection H as -> ->. split; [reflexivity | simpl; lia].
    + destruct (IH n x r H) as [Hr Hn]. split; [exact Hr | simpl; lia].
Qed.

Lemma advanced_due_notes c secondsPerTick : forall pending p,
  pending = skipn (nextNoteIndex p) (notes (engine p)) ->
  advanced p (left_by (due_notes c secondsPerTick pending p)).
Proof.
  induction pending as [|note more IH]; intros p Hpending.
  - cbn. unfold advanced. cbv zeta. rewrite Nat.sub_diag.
    repeat split; [lia | lia|].
    exists []. split; [symmetry; apply app_nil_r | constructor].
  - cbn [Playback.due_notes]. cbv zeta.
    symmetry in Hpending.
    destruct (skipn_next _ _ _ _ Hpending) as [Hmore Hn].
    destruct (_ <? _).
    2:{ cbn. unfold advanced. cbv zeta. rewrite Nat.sub_diag.
        repeat split; [lia | lia|].
        exists []. split; [symmetry; apply app_nil_r | constructor]. }
    pose proof (playNote_starts c note
                  (startTime (engine p)
                   + Parser.ToNumber (Parser.tick note) * secondsPerTick) p)
      as Hplay.
    cbv zeta in Hplay.
    destruct (playNote c note _ p) as [q | q]; cbn [left_by] in Hplay |- *;
      destruct Hplay as (Hnotes & Hindex & new & Htrace & Hstarted).
    + set (q' := set_nextNoteIndex (S (nextNoteIndex q)) q).
      assert (Hi : nextNoteIndex q' = S (nextNoteIndex p))
        by (cbn; rewrite Hindex; reflexivity).
      assert (Hl : notes (engine q') = notes (engine p)) by exact Hnotes.
      assert (Ht : trace (platform q') = trace (platform p) ++ new)
        by exact Htrace.
      clearbody q'.
      assert (Hq : more = skipn (nextNoteIndex q') (notes (engine q')))
        by (rewrite Hi, Hl; symmetry; exact Hmore).
      destruct (IH q' Hq) as (Hnotes' & Hle & Hbound & new' & Htrace' & Hsub).
      rewrite Hi, Hl in *.
      unfold advanced. cbv zeta.
      split; [exact Hnotes'|]. split; [lia|]. split; [lia|].
      exists (new ++ new'). split.
      * rewrite Htrace', Ht, app_assoc. reflexivity.
      * rewrite started_app.
        replace (nextNoteIndex (left_by (due_notes c secondsPerTick more q'))
                 - nextNoteIndex p)%nat
          with (S (nextNoteIndex (left_by (due_notes c secondsPerTick more q'))
                   - S (nextNoteIndex p)))%nat by lia.
        rewrite Hpending. cbn [firstn]. rewrite Hmore in Hsub.
        destruct Hstarted as [-> | ->]; cbn [app];
          constructor; exact Hsub.
    + unfold advanced. cbv zeta. rewrite Hindex, Nat.sub_diag.
      split; [exact Hnotes|]. split; [lia|]. split; [lia|].
      exists new. split; [exact Htrace|].
      rewrite Hstarted. constructor.
Qed.

Lemma advanced_schedule fuel p r :
  schedule fuel p = Some r -> advanced p (left_by r).
Proof.
  unfold Playback.schedule. cbv zeta.
  destruct (isPlaying (engine p));
    [|intros H; injection H as <-; apply silent_advanced, silent_refl].
  destruct (ctx (engine p)) as [c|];
    [|intros H; injection H as <-; apply silent_advanced, silent_refl].
  set (secondsPerTick := 60 / (bpm (engine p) * playbackSpeed (engine p)) / 12).
  set (secondsPerBeat := 60 / (bpm (engine p) * playbackSpeed (engine p))).
  set (beatsPerMeasure := match rhythmMode p with binary => 4 | ternary => 3 end).
  assert (Hmetronome :
    forall m,
      (if isMetronomeEnabled p
       then beats fuel c secondsPerBeat beatsPerMeasure p
       else Some (Finished p)) = Some m -> silent p (left_by m)).
  { intros m. destruct (isMetronomeEnabled p).
    - apply silent_beats.
    - intros H. injection H as <-. apply silent_refl. }
  destruct (if isMetronomeEnabled p then _ else _) as [[q | q]|];
    [| |discriminate].
  - specialize (Hmetronome _ eq_refl). cbn [left_by] in Hmetronome.
    pose proof (advanced_due_notes c secondsPerTick _ q eq_refl) as Hdue.
    destruct (due_notes c secondsPerTick _ q) as [q' | q'];
      cbn [left_by] in Hdue; intros H; injection H as <-; cbn [left_by].
    + apply (advanced_trans _ q); [apply silent_advanced, Hmetronome|].
      apply (advanced_trans _ q'); [exact Hdue|].
      apply silent_advanced, silent_end_or_rearm.
    + apply (advanced_trans _ q); [apply silent_advanced, Hmetronome|].
      exact Hdue.
  - specialize (Hmetronome _ eq_refl). intros H. injection H as <-.
    apply silent_advanced, Hmetronome.
Qed.

Lemma advanced_callbacks fuel l : forall p p',
  callbacks fuel l p = Some p' -> advanced p p'.
Proof.
  induction l as [|[t | t] l IH]; intros p p'; cbn [Playback.callbacks].
  - intros H. injection H as <-. apply silent_advanced, silent_refl.
  - destruct (schedule fuel (at_time t p)) as [r|] eqn:Hr; [|discriminate].
    intros H. apply IH in H. apply advanced_schedule in Hr.
    apply (advanced_trans _ (at_time t p));
      [apply silent_advanced, silent_at_time|].
    apply (advanced_trans _ (left_by r)); assumption.
  - intros H. apply IH in H.
    apply (advanced_trans _ (at_time t p));
      [apply silent_advanced, silent_at_time|].
    apply (advanced_trans _ (updateTickUI (at_time t p))); [|exact H].
    apply silent_advanced, silent_updateTickUI.
Qed.

End Scheduling.

(** ** Numbers that are not numbers *)






Section Ends.

Variable random : nat -> float.
Variable start_accepts : float -> bool.
Variable shaker_accepts : float -> bool.

Local Abbreviation playNote := (playNote random start_accepts).
Local Abbreviation beats := (beats shaker_accepts).
Local Abbreviation due_notes := (due_notes random start_accepts).
Local Abbreviation schedule := (schedule random start_accepts shaker_accepts).
Local Abbreviation callbacks :=
  (callbacks random start_accepts shaker_accepts).

Lemma undisturbed_refl p : undisturbed p p.
Proof. repeat split. Qed.

Lemma undisturbed_trans p q r :
  undisturbed p q -> undisturbed q r -> undisturbed p r.
Proof.
  intros (H1 & H2 & H3 & H4 & H5) (H1' & H2' & H3' & H4' & H5').
  repeat split; congruence.
Qed.


Lemma undisturbed_playNote c note time p :
  undisturbed p (left_by (playNote c note time p)).
Proof.
  unfold Playback.playNote.
  destruct (_ <? _); [apply undisturbed_refl|].
  destruct (get_property (currentTuning _) _) as [[|u noteName]| |];
    try apply undisturbed_refl.
  destruct (get_property (stringBuffers _) _) as [buffer| |];
    try apply undisturbed_refl.
  destruct (start_accepts time); repeat split.
Qed.

Lemma undisturbed_due_notes c secondsPerTick : forall pending p,
  undisturbed p (left_by (due_notes c secondsPerTick pending p)).
Proof.
  induction pending as [|note more IH]; intros p;
    cbn [Playback.due_notes]; [apply undisturbed_refl|].
  cbv zeta. destruct (_ <? _); [|apply undisturbed_refl].
  pose proof (undisturbed_playNote c note
                (startTime (engine p)
                 + Parser.ToNumber (Parser.tick note) * secondsPerTick) p)
    as Hplay.
  destruct (playNote c note _ p) as [q | q]; cbn [left_by] in Hplay |- *;
    [|exact Hplay].
  refine (undisturbed_trans _ _ _ Hplay _).
  refine (undisturbed_trans _ _ _ _ (IH _)). repeat split.
Qed.

(** With the metronome off no fuel is needed. *)
Lemma schedule_returns fuel p :
  isMetronomeEnabled p = false ->
  exists r, schedule fuel p = Some r /\
            isMetronomeEnabled (left_by r) = false.
Proof.
  intros Hoff. unfold Playback.schedule. cbv zeta. rewrite Hoff.
  destruct (isPlaying (engine p)); [|exists (Finished p); split; auto].
  destruct (ctx (engine p)) as [c|]; [|exists (Finished p); split; auto].
  match goal with
  | |- context [Playback.due_notes _ _ c ?spt ?l p] =>
      pose proof (undisturbed_due_notes c spt l p) as Hdue;
      destruct (Playback.due_notes random start_accepts c spt l p) as [q | q]
  end; cbn [left_by] in Hdue; destruct Hdue as (_ & _ & _ & Hflag & _);
    eexists; (split; [reflexivity|]); cbn [left_by].
  - unfold end_or_rearm, ended, rearmed, setTimeout. cbv zeta.
    rewrite <- Hoff, <- Hflag.
    destruct (Nat.leb _ _); [|reflexivity].
    destruct (Parser.last_note _); [destruct (_ <? _)|];
      try reflexivity;
      destruct q as [e n [s|] [a|] ? ? ? ? ? ? [|] ? [|] [? ? ? calls]];
      reflexivity.
  - congruence.
Qed.

Lemma callbacks_return fuel l : forall p,
  isMetronomeEnabled p = false -> exists p', callbacks fuel l p = Some p'.
Proof.
  induction l as [|[t | t] l IH]; intros p Hoff; cbn [Playback.callbacks].
  - exists p. reflexivity.
  - destruct (schedule_returns fuel (at_time t p) Hoff) as (r & -> & Hr).
    apply IH. exact Hr.
  - apply IH. unfold updateTickUI. cbv zeta.
    destruct (isPlaying _); [|exact Hoff].
    destruct (ctx _); [|exact Hoff].
    destruct (onTickCallback _); exact Hoff.
Qed.

(** X15: over any sequence of timer and animation-frame callbacks, at
    whatever times they come, the scheduler goes through the note list in
    order and only forwards: the note list is not changed, [nextNoteIndex]
    never decreases and never passes the end of the list, and the sources
    started are for notes between the first and the last position, each
    note at most once and in the order of the list. With the metronome off
    every such sequence runs to its end. *)
Theorem notes_start_once_in_order (fuel : nat) (l : list callback)
  (p : Player) :
  (isMetronomeEnabled p = false -> exists p', callbacks fuel l p = Some p') /\
  (forall p', callbacks fuel l p = Some p' -> advanced p p').
Proof.
  split; [apply callbacks_return|].
  apply (advanced_callbacks random start_accepts shaker_accepts).
Qed.







Lemma stopped_callbacks fuel l : forall q,
  isPlaying (engine q) = false ->
  exists p',
    callbacks fuel l q = Some p' /\
    platform p' = platform q /\
    isPlaying (engine p') = false /\
    schedulerId p' = schedulerId q /\
    animationFrameId p' = animationFrameId q /\
    nextNoteIndex p' = nextNoteIndex q.
Proof.
  induction l as [|[t | t] l IH]; intros q Hplaying;
    cbn [Playback.callbacks].
  - exists q. repeat split; assumption.
  - unfold Playback.schedule. cbv zeta.
    change (isPlaying (engine (at_time t q))) with (isPlaying (engine q)).
    rewrite Hplaying. cbn [left_by].
    destruct (IH (at_time t q) Hplaying) as (p' & H & Hrest).
    exists p'. split; [exact H | exact Hrest].
  - unfold updateTickUI. cbv zeta.
    change (isPlaying (engine (at_time t q))) with (isPlaying (engine q)).
    rewrite Hplaying.
    destruct (IH (at_time t q) Hplaying) as (p' & H & Hrest).
    exists p'. split; [exact H | exact Hrest].
Qed.

Lemma stop_state p :
  isPlaying (engine (stop p)) = false /\
  schedulerId (stop p) = None /\
  animationFrameId (stop p) = None /\
  nextNoteIndex (stop p) = nextNoteIndex p /\
  stop (stop p) = stop p.
Proof.
  destruct p as [e n [s|] [a|] ? ? ? ? ? ? [|] ? ? [? ? ? calls]];
    vm_compute; (split; [reflexivity|]); (split; [reflexivity|]);
    (split; [reflexivity|]); (split; reflexivity).
Qed.

(** X18: [stop] is final. A second [stop] changes nothing,
    [getCurrentTick] is 0, and a timer or an animation frame that still
    comes due afterwards makes no call to the platform and leaves the
    engine stopped, without timer and without animation frame. *)
Theorem stopped_player_stays_silent (fuel : nat) (l : list callback)
  (p : Player) :
  stop (stop p) = stop p /\
  getCurrentTick (engine (stop p)) = 0 /\
  exists p',
    callbacks fuel l (stop p) = Some p' /\
    platform p' = platform (stop p) /\
    isPlaying (engine p') = false /\
    schedulerId p' = None /\
    animationFrameId p' = None /\
    nextNoteIndex p' = nextNoteIndex p.
Proof.
  destruct (stop_state p) as (Hplaying & Hs & Ha & Hn & Hagain).
  split; [exact Hagain|]. split.
  - unfold getCurrentTick. rewrite Hplaying.
    destruct (ctx (engine (stop p))); reflexivity.
  - destruct (stopped_callbacks fuel l (stop p) Hplaying)
      as (p' & H & Hw & Hp & Hs' & Ha' & Hn').
    exists p'. split; [exact H|]. split; [exact Hw|]. split; [exact Hp|].
    split; [congruence|]. split; congruence.
Qed.

End Ends.



End PlaybackProofs.
